(** * LinguaWeaver: the video catalog and the translation lifecycle handlers

    A shallow embedding of the server side of the repository:
    - [server/src/schema.ts]            (zod schemas, input types),
    - [server/src/db/schema.ts]         (the two tables),
    - [server/src/handlers/*.ts]        (the eight handlers),
    - [server/src/index.ts]             (the tRPC procedures: schema, then handler).

    The PostgreSQL database behind drizzle is modelled as a pair of row lists
    in heap (insertion) order together with the two [serial] sequences.
    Handlers are computations in a state-and-exception monad over that
    database: an [async] function either resolves with a value or rejects
    with the thrown error, and what it wrote before throwing stays written.

    The clock is an argument: [now] stands for what [new Date()] and
    [defaultNow()] read when the handler runs.

    The model has two layers. The handlers are first given on exact
    numbers (integers for the [integer] and [serial] columns, rationals for
    the [real] one): that is how they behave on every value the columns
    hold. Module [Pg] then gives them with the column types of
    db/schema.ts: a statement that binds an integer outside the 32-bit
    range of its column is rejected by the database, a sequence can run
    out, and a [real] column gives back the number as it holds it. On
    values in range the two layers agree (the lemmas [Pg_..._exact]). A
    handler is one step of the model: its statements run back to back;
    where the order of statements of two requests matters the statements
    are run one by one ([createTranslation_race]). *)

From Stdlib Require Import ZArith QArith Qcanon.
From stdpp Require Import base option list numbers strings pretty sorting.

Local Open Scope Z_scope.

(** ** Enumerations ([supportedLanguagesSchema], [translationStatusSchema]) *)

Inductive SupportedLanguage : Set :=
  | en | es | fr | de | it | pt | ru | ja | ko | zh | ar | hi.

Inductive TranslationStatus : Set :=
  | pending | processing | completed | failed.

#[global] Instance SupportedLanguage_eq_dec : EqDecision SupportedLanguage.
Proof. solve_decision. Defined.

#[global] Instance TranslationStatus_eq_dec : EqDecision TranslationStatus.
Proof. solve_decision. Defined.

(** The string a language value is at run time (zod enums are string unions). *)
Definition language_string (l : SupportedLanguage) : string :=
  match l with
  | en => "en" | es => "es" | fr => "fr" | de => "de" | it => "it" | pt => "pt"
  | ru => "ru" | ja => "ja" | ko => "ko" | zh => "zh" | ar => "ar" | hi => "hi"
  end.

Definition supportedLanguages : list SupportedLanguage :=
  [en; es; fr; de; it; pt; ru; ja; ko; zh; ar; hi].

(** [supportedLanguagesSchema.parse] on a string: the enum member spelled
    that way, if any. *)
Definition supportedLanguagesSchema (s : string) : option SupportedLanguage :=
  List.find (λ l, bool_decide (language_string l = s)) supportedLanguages.

(** A [Date] is its time value (milliseconds since the epoch); dates compare
    by that value. *)
Definition Date : Set := Z.

(** ** Rows and inputs

    Each record lives in a module of its own so that fields keep the names
    they have in the source. A nullable column is an [option]; a JavaScript
    [number] that is stored in an [integer] or [serial] column is a [Z], the
    [real]-valued [duration] a rational. *)

Module Video.
Record t : Set := mk {
  id : Z;
  filename : string;
  original_filename : string;
  file_path : string;
  file_size : Z;
  duration : option Qc;
  mime_type : string;
  original_language : option SupportedLanguage;
  uploaded_at : Date;
  updated_at : Date
}.
End Video.

Module Translation.
Record t : Set := mk {
  id : Z;
  video_id : Z;
  target_language : SupportedLanguage;
  status : TranslationStatus;
  translated_audio_path : option string;
  transcript_original : option string;
  transcript_translated : option string;
  progress_percentage : Z;
  error_message : option string;
  started_at : option Date;
  completed_at : option Date;
  created_at : Date;
  updated_at : Date
}.
End Translation.

Module TranslationWithVideo.
Record t : Set := mk {
  id : Z;
  video_id : Z;
  target_language : SupportedLanguage;
  status : TranslationStatus;
  translated_audio_path : option string;
  transcript_original : option string;
  transcript_translated : option string;
  progress_percentage : Z;
  error_message : option string;
  started_at : option Date;
  completed_at : option Date;
  created_at : Date;
  updated_at : Date;
  video : Video.t
}.
End TranslationWithVideo.

Module UploadVideoInput.
Record t : Set := mk {
  filename : string;
  original_filename : string;
  file_path : string;
  file_size : Z;
  duration : option Qc;
  mime_type : string;
  original_language : option SupportedLanguage
}.
End UploadVideoInput.

Module CreateTranslationInput.
Record t : Set := mk {
  video_id : Z;
  target_language : SupportedLanguage
}.
End CreateTranslationInput.

(** In [UpdateTranslationProgressInput] every field but the id is
    [.optional()]: the outer [option] is presence ([None] is [undefined]),
    the inner one of a [.nullable()] field is the value or [null]. *)
Module UpdateTranslationProgressInput.
Record t : Set := mk {
  translation_id : Z;
  status : option TranslationStatus;
  progress_percentage : option Z;
  translated_audio_path : option (option string);
  transcript_original : option (option string);
  transcript_translated : option (option string);
  error_message : option (option string);
  started_at : option (option Date);
  completed_at : option (option Date)
}.
End UpdateTranslationProgressInput.

(** ** The database and the monad of handlers *)

Record Db : Set := mkDb {
  videos : list Video.t;
  videos_id_seq : Z;
  translations : list Translation.t;
  translations_id_seq : Z
}.

(** A freshly created schema ([createDB]): no rows, both sequences at 1. *)
Definition emptyDb : Db := mkDb [] 1 [] 1.

(** What a handler can throw: a plain [Error] with its message, the
    [ZodError] of a failed input parse with the paths of its issues, or the
    [DatabaseError] with which the driver rejects a statement, with its
    SQLSTATE code. *)
Inductive JsError : Set :=
  | Error (message : string)
  | ZodError (issues : list string)
  | DatabaseError (code : string).

Inductive Settled (A : Type) : Type :=
  | Resolved (a : A)
  | Rejected (e : JsError).
Arguments Resolved {A} a.
Arguments Rejected {A} e.

Definition Promise (A : Type) : Type := Db → Settled A * Db.

#[global] Instance Promise_ret : MRet Promise := λ A a db, (Resolved a, db).

#[global] Instance Promise_bind : MBind Promise := λ A B k m db,
  match m db with
  | (Resolved a, db') => k a db'
  | (Rejected e, db') => (Rejected e, db')
  end.

Definition throw {A} (e : JsError) : Promise A := λ db, (Rejected e, db).

(** [try { body } catch (error) { console.error(..., error); throw error; }]:
    every handler is wrapped so; the error is logged and thrown again, so
    the settled value and the database are those of the body. *)
Definition try_rethrow {A} (body : Promise A) : Promise A := λ db,
  match body db with
  | (Resolved a, db') => (Resolved a, db')
  | (Rejected e, db') => (Rejected e, db')
  end.

(** *** Queries

    A [select] reads its rows ([from], with the join if any), keeps those
    satisfying [where] and, last, orders them. *)

Definition no_where {R} : R → bool := λ _, true.
Definition no_order {R} : list R → list R := λ rows, rows.

Definition select {R} (from : Db → list R) (where_ : R → bool)
    (orderBy : list R → list R) : Promise (list R) :=
  λ db, (Resolved (orderBy (List.filter where_ (from db))), db).

(** [desc(column)]: rows with the larger [key] first. The order among rows
    with equal keys is whatever the executor produces; here it is heap
    order (the insertion below is stable). *)
Fixpoint insert_desc {R} (key : R → Date) (x : R) (rows : list R) : list R :=
  match rows with
  | [] => [x]
  | y :: rows' =>
      if bool_decide (key y ≤ key x) then x :: y :: rows'
      else y :: insert_desc key x rows'
  end.

Definition desc {R} (key : R → Date) (rows : list R) : list R :=
  foldr (insert_desc key) [] rows.

(** [translationsTable.innerJoin(videosTable, eq(translationsTable.video_id,
    videosTable.id))]: one row per pair that satisfies the condition. *)
Definition translations_innerJoin_videos (db : Db)
  : list (Translation.t * Video.t) :=
  flat_map
    (λ t, List.map (pair t)
            (List.filter (λ v, bool_decide (Translation.video_id t = Video.id v))
                         (videos db)))
    (translations db).

(** *** Inserts

    [db.insert(table).values(row).returning().execute()] followed by
    [result[0]]: the one inserted row. The handler gives the columns that
    have no default; [id] is the next value of the table's sequence and the
    two [defaultNow()] columns are the time of the statement. [mkrow] is the
    row as a function of those three. The key checks of the insert are not
    replayed here: on a database that satisfies the constraints ([wf_db]
    below) the handlers' inserts pass them, and leave it satisfying them. *)

Definition insert_videos_returning (now : Date)
    (mkrow : Z → Date → Date → Video.t) : Promise Video.t :=
  λ db, let row := mkrow (videos_id_seq db) now now in
        (Resolved row,
         mkDb (videos db ++ [row]) (videos_id_seq db + 1)
              (translations db) (translations_id_seq db)).

Definition insert_translations_returning (now : Date)
    (mkrow : Z → Date → Date → Translation.t) : Promise Translation.t :=
  λ db, let row := mkrow (translations_id_seq db) now now in
        (Resolved row,
         mkDb (videos db) (videos_id_seq db)
              (translations db ++ [row]) (translations_id_seq db + 1)).

(** *** Updates

    [db.update(translationsTable).set(s).where(w).returning().execute()]:
    every row satisfying [w] is replaced by [s] of it, in place; the result
    is the list of the rows as updated. *)
Definition update_translations_returning
    (set : Translation.t → Translation.t) (where_ : Translation.t → bool)
  : Promise (list Translation.t) :=
  λ db, (Resolved (List.map set (List.filter where_ (translations db))),
         mkDb (videos db) (videos_id_seq db)
              (List.map (λ t, if where_ t then set t else t) (translations db))
              (translations_id_seq db)).

(** ** [createTranslation] (handlers/create_translation.ts) *)

Definition createTranslation (now : Date) (input : CreateTranslationInput.t)
  : Promise Translation.t :=
  try_rethrow (
    video ← select videos
      (λ v, bool_decide (Video.id v = CreateTranslationInput.video_id input))
      no_order;
    if bool_decide (length video = 0%nat) then
      throw (Error ("Video with ID "
                    +:+ pretty (CreateTranslationInput.video_id input)
                    +:+ " not found"))
    else
    existingTranslation ← select translations
      (λ t, bool_decide (Translation.video_id t
                           = CreateTranslationInput.video_id input)
            && bool_decide (Translation.target_language t
                           = CreateTranslationInput.target_language input))
      no_order;
    if bool_decide (0 < length existingTranslation)%nat then
      throw (Error ("Translation to "
                    +:+ language_string (CreateTranslationInput.target_language input)
                    +:+ " already exists for video "
                    +:+ pretty (CreateTranslationInput.video_id input)))
    else
    insert_translations_returning now
      (λ id created_at updated_at,
         Translation.mk id
           (CreateTranslationInput.video_id input)
           (CreateTranslationInput.target_language input)
           pending None None None 0 None None None created_at updated_at)).

(** ** [uploadVideo] (handlers/upload_video.ts) *)

Definition uploadVideo (now : Date) (input : UploadVideoInput.t)
  : Promise Video.t :=
  try_rethrow (
    insert_videos_returning now
      (λ id uploaded_at updated_at,
         Video.mk id
           (UploadVideoInput.filename input)
           (UploadVideoInput.original_filename input)
           (UploadVideoInput.file_path input)
           (UploadVideoInput.file_size input)
           (UploadVideoInput.duration input)
           (UploadVideoInput.mime_type input)
           (UploadVideoInput.original_language input)
           uploaded_at updated_at)).

(** ** [getVideos] (handlers/get_videos.ts) *)

Definition getVideos : Promise (list Video.t) :=
  try_rethrow (select videos no_where (desc Video.uploaded_at)).

(** ** [getVideoById] (handlers/get_video_by_id.ts)

    The object spread with [duration: video.duration] copies the row. *)

Definition getVideoById (video_id : Z) : Promise (option Video.t) :=
  try_rethrow (
    results ← select videos (λ v, bool_decide (Video.id v = video_id)) no_order;
    match results with
    | [] => mret None
    | video :: _ =>
        mret (Some (Video.mk (Video.id video) (Video.filename video)
                      (Video.original_filename video) (Video.file_path video)
                      (Video.file_size video) (Video.duration video)
                      (Video.mime_type video) (Video.original_language video)
                      (Video.uploaded_at video) (Video.updated_at video)))
    end).

(** ** [getTranslationsByVideo] (handlers/get_translations_by_video.ts) *)

Definition getTranslationsByVideo (video_id : Z) : Promise (list Translation.t) :=
  try_rethrow (
    results ← select translations
      (λ t, bool_decide (Translation.video_id t = video_id))
      (desc Translation.created_at);
    mret (List.map
            (λ translation,
               Translation.mk (Translation.id translation)
                 (Translation.video_id translation)
                 (Translation.target_language translation)
                 (Translation.status translation)
                 (Translation.translated_audio_path translation)
                 (Translation.transcript_original translation)
                 (Translation.transcript_translated translation)
                 (Translation.progress_percentage translation)
                 (Translation.error_message translation)
                 (Translation.started_at translation)
                 (Translation.completed_at translation)
                 (Translation.created_at translation)
                 (Translation.updated_at translation))
            results)).

(** ** [getTranslationById] and [getAllTranslations]

    Both map a joined row [{translations, videos}] to the flat
    [TranslationWithVideo] shape, field by field. *)

Definition joined_row (result : Translation.t * Video.t)
  : TranslationWithVideo.t :=
  let (translations, videos) := result in
  TranslationWithVideo.mk
    (Translation.id translations)
    (Translation.video_id translations)
    (Translation.target_language translations)
    (Translation.status translations)
    (Translation.translated_audio_path translations)
    (Translation.transcript_original translations)
    (Translation.transcript_translated translations)
    (Translation.progress_percentage translations)
    (Translation.error_message translations)
    (Translation.started_at translations)
    (Translation.completed_at translations)
    (Translation.created_at translations)
    (Translation.updated_at translations)
    (Video.mk (Video.id videos) (Video.filename videos)
       (Video.original_filename videos) (Video.file_path videos)
       (Video.file_size videos) (Video.duration videos)
       (Video.mime_type videos) (Video.original_language videos)
       (Video.uploaded_at videos) (Video.updated_at videos)).

Definition getTranslationById (translation_id : Z)
  : Promise (option TranslationWithVideo.t) :=
  try_rethrow (
    results ← select translations_innerJoin_videos
      (λ r, bool_decide (Translation.id r.1 = translation_id))
      no_order;
    match results with
    | [] => mret None
    | result :: _ => mret (Some (joined_row result))
    end).

Definition getAllTranslations : Promise (list TranslationWithVideo.t) :=
  try_rethrow (
    results ← select translations_innerJoin_videos no_where
      (desc (λ r, Translation.created_at r.1));
    mret (List.map joined_row results)).

(** ** [updateTranslationProgress] (handlers/update_translation_progress.ts)

    [updateData] is the object given to [.set]: [updated_at] always, every
    other key only when the handler assigned it. *)

Module UpdateData.
Record t : Set := mk {
  updated_at : Date;
  status : option TranslationStatus;
  progress_percentage : option Z;
  translated_audio_path : option (option string);
  transcript_original : option (option string);
  transcript_translated : option (option string);
  error_message : option (option string);
  started_at : option (option Date);
  completed_at : option (option Date)
}.
End UpdateData.

(** [if (input.f !== undefined) { updateData.f = input.f; }] *)
Definition assign_if_defined {A} (field : option A) : option A :=
  match field with
  | Some value => Some value
  | None => None
  end.

(** What [.set(updateData)] does to a row: a key that is present replaces
    the column, the other columns stay. *)
Definition set_updateData (u : UpdateData.t) (row : Translation.t)
  : Translation.t :=
  Translation.mk
    (Translation.id row)
    (Translation.video_id row)
    (Translation.target_language row)
    (default (Translation.status row) (UpdateData.status u))
    (default (Translation.translated_audio_path row)
             (UpdateData.translated_audio_path u))
    (default (Translation.transcript_original row)
             (UpdateData.transcript_original u))
    (default (Translation.transcript_translated row)
             (UpdateData.transcript_translated u))
    (default (Translation.progress_percentage row)
             (UpdateData.progress_percentage u))
    (default (Translation.error_message row) (UpdateData.error_message u))
    (default (Translation.started_at row) (UpdateData.started_at u))
    (default (Translation.completed_at row) (UpdateData.completed_at u))
    (Translation.created_at row)
    (UpdateData.updated_at u).

Definition build_updateData (now : Date)
    (input : UpdateTranslationProgressInput.t) : UpdateData.t :=
  UpdateData.mk now
    (assign_if_defined (UpdateTranslationProgressInput.status input))
    (assign_if_defined (UpdateTranslationProgressInput.progress_percentage input))
    (assign_if_defined (UpdateTranslationProgressInput.translated_audio_path input))
    (assign_if_defined (UpdateTranslationProgressInput.transcript_original input))
    (assign_if_defined (UpdateTranslationProgressInput.transcript_translated input))
    (assign_if_defined (UpdateTranslationProgressInput.error_message input))
    (assign_if_defined (UpdateTranslationProgressInput.started_at input))
    (assign_if_defined (UpdateTranslationProgressInput.completed_at input)).

Definition updateTranslationProgress (now : Date)
    (input : UpdateTranslationProgressInput.t)
  : Promise (option Translation.t) :=
  try_rethrow (
    let updateData := build_updateData now input in
    result ← update_translations_returning (set_updateData updateData)
      (λ t, bool_decide (Translation.id t
                           = UpdateTranslationProgressInput.translation_id input));
    match result with
    | [] => mret None
    | row :: _ => mret (Some row)
    end).

(** ** The tRPC procedure [uploadVideo] (index.ts)

    [publicProcedure.input(uploadVideoInputSchema).mutation(({ input }) =>
    uploadVideo(input))]: the request body is parsed with the schema; a
    failed parse throws before the handler is called. *)

(** The request body as it arrives: the three constrained fields not yet
    checked, the language still a string. *)
Module UploadVideoRequest.
Record t : Set := mk {
  filename : string;
  original_filename : string;
  file_path : string;
  file_size : Z;
  duration : option Qc;
  mime_type : string;
  original_language : option string
}.
End UploadVideoRequest.

(** [z.number().positive()] *)
Definition number_positive (n : Z) : option Z :=
  if bool_decide (0 < n) then Some n else None.

Definition real_positive (q : Qc) : option Qc :=
  if bool_decide (0 < q)%Qc then Some q else None.

(** [schema.nullable()]: [null] parses to [null], anything else goes to
    the inner schema. *)
Definition nullable {A B} (schema : A → option B) (x : option A)
  : option (option B) :=
  match x with
  | None => Some None
  | Some a => match schema a with
              | Some b => Some (Some b)
              | None => None
              end
  end.

Definition issue {A} (path : string) (parsed : option A) : list string :=
  match parsed with
  | Some _ => []
  | None => [path]
  end.

(** [uploadVideoInputSchema.parse]: the typed input, or the paths of the
    fields that failed. *)
Definition uploadVideoInputSchema (body : UploadVideoRequest.t)
  : UploadVideoInput.t + list string :=
  let file_size := number_positive (UploadVideoRequest.file_size body) in
  let duration := nullable real_positive (UploadVideoRequest.duration body) in
  let original_language :=
    nullable supportedLanguagesSchema (UploadVideoRequest.original_language body) in
  match file_size, duration, original_language with
  | Some s, Some d, Some l =>
      inl (UploadVideoInput.mk
             (UploadVideoRequest.filename body)
             (UploadVideoRequest.original_filename body)
             (UploadVideoRequest.file_path body)
             s d
             (UploadVideoRequest.mime_type body)
             l)
  | _, _, _ =>
      inr (issue "file_size" file_size ++ issue "duration" duration
           ++ issue "original_language" original_language)
  end.

Definition appRouter_uploadVideo (now : Date) (body : UploadVideoRequest.t)
  : Promise Video.t :=
  match uploadVideoInputSchema body with
  | inl input => uploadVideo now input
  | inr issues => throw (ZodError issues)
  end.

(** ** Integrity constraints of the schema

    What PostgreSQL maintains for the two tables: [id] is a primary key fed
    by a sequence that is ahead of every id handed out, and
    [translations.video_id] references [videos.id]. *)

Record wf_db (db : Db) : Prop := mk_wf_db {
  wf_videos_pkey : NoDup (List.map Video.id (videos db));
  wf_videos_seq : ∀ v, v ∈ videos db → Video.id v < videos_id_seq db;
  wf_translations_pkey : NoDup (List.map Translation.id (translations db));
  wf_translations_seq :
    ∀ t, t ∈ translations db → Translation.id t < translations_id_seq db;
  wf_translations_video_id_fkey :
    ∀ t, t ∈ translations db →
         ∃ v, v ∈ videos db ∧ Video.id v = Translation.video_id t
}.

(** ** Vocabulary of the statements *)

(** Descending order on a timestamp column. *)
Definition desc_by {R} (key : R → Date) : relation R :=
  λ a b, key b ≤ key a.

(** The field-by-field effect of a patch: a provided value is the new
    value, an omitted one keeps the old. *)
Definition patched {A} (provided : option A) (old new : A) : Prop :=
  match provided with
  | Some value => new = value
  | None => new = old
  end.

(** The strings of the supported languages, as the schema lists them. *)
Definition supported_language_strings : list string :=
  ["en"; "es"; "fr"; "de"; "it"; "pt"; "ru"; "ja"; "ko"; "zh"; "ar"; "hi"].

(** The translation columns of a joined record. *)
Definition translation_of (r : TranslationWithVideo.t) : Translation.t :=
  Translation.mk
    (TranslationWithVideo.id r) (TranslationWithVideo.video_id r)
    (TranslationWithVideo.target_language r) (TranslationWithVideo.status r)
    (TranslationWithVideo.translated_audio_path r)
    (TranslationWithVideo.transcript_original r)
    (TranslationWithVideo.transcript_translated r)
    (TranslationWithVideo.progress_percentage r)
    (TranslationWithVideo.error_message r)
    (TranslationWithVideo.started_at r)
    (TranslationWithVideo.completed_at r)
    (TranslationWithVideo.created_at r)
    (TranslationWithVideo.updated_at r).

(** The two errors of [createTranslation], the row its step 3 inserts into
    [db], and [db] with that row. *)
Definition video_not_found (input : CreateTranslationInput.t) : JsError :=
  Error ("Video with ID " +:+ pretty (CreateTranslationInput.video_id input)
         +:+ " not found").

Definition duplicate_translation (input : CreateTranslationInput.t) : JsError :=
  Error ("Translation to "
         +:+ language_string (CreateTranslationInput.target_language input)
         +:+ " already exists for video "
         +:+ pretty (CreateTranslationInput.video_id input)).

Definition created_translation (now : Date) (input : CreateTranslationInput.t)
    (db : Db) : Translation.t :=
  Translation.mk (translations_id_seq db)
    (CreateTranslationInput.video_id input)
    (CreateTranslationInput.target_language input)
    pending None None None 0 None None None now now.

Definition db_with_translation (db : Db) (row : Translation.t) : Db :=
  mkDb (videos db) (videos_id_seq db)
       (translations db ++ [row]) (translations_id_seq db + 1).

(** [db] with its translation rows replaced. *)
Definition db_set_translations (db : Db) (rows : list Translation.t) : Db :=
  mkDb (videos db) (videos_id_seq db) rows (translations_id_seq db).

(** The row [uploadVideo] inserts into [db], and [db] with that row. *)
Definition uploaded_video (now : Date) (input : UploadVideoInput.t) (db : Db)
  : Video.t :=
  Video.mk (videos_id_seq db)
    (UploadVideoInput.filename input) (UploadVideoInput.original_filename input)
    (UploadVideoInput.file_path input) (UploadVideoInput.file_size input)
    (UploadVideoInput.duration input) (UploadVideoInput.mime_type input)
    (UploadVideoInput.original_language input) now now.

Definition db_with_video (db : Db) (row : Video.t) : Db :=
  mkDb (videos db ++ [row]) (videos_id_seq db + 1)
       (translations db) (translations_id_seq db).

(** ** Databases for the worked examples

    The video of the handlers' tests, registered at time 1000, with a
    Spanish translation requested at time 2000. *)

Definition test_video_input : UploadVideoInput.t :=
  UploadVideoInput.mk "test-video.mp4" "original-test-video.mp4"
    "/uploads/test-video.mp4" 1024000 (Some (Q2Qc (241 # 2))) "video/mp4"
    (Some en).

Definition test_video : Video.t :=
  Video.mk 1 "test-video.mp4" "original-test-video.mp4"
    "/uploads/test-video.mp4" 1024000 (Some (Q2Qc (241 # 2))) "video/mp4"
    (Some en) 1000 1000.

Definition test_translation : Translation.t :=
  Translation.mk 1 1 es pending None None None 0 None None None 2000 2000.

Definition db_one_video : Db :=
  (uploadVideo 1000 test_video_input emptyDb).2.

Definition db_one_translation : Db :=
  (createTranslation 2000 (CreateTranslationInput.mk 1 es) db_one_video).2.

(** The worker reports that it is half way. *)
Definition half_way_input : UpdateTranslationProgressInput.t :=
  UpdateTranslationProgressInput.mk 1 (Some processing) (Some 50)
    None None None None None None.

(** A database that breaks the foreign key: the translation with id 7
    refers to video 42, which does not exist. (The handlers never produce
    such a row; the join is what decides how it would be read.) *)
Definition db_with_orphan : Db :=
  mkDb (videos db_one_translation) (videos_id_seq db_one_translation)
       (translations db_one_translation
        ++ [Translation.mk 7 42 fr pending None None None 0 None None None
              2500 2500])
       8.

(** ** The other procedures with a constrained input (index.ts)

    [createTranslation] and [updateTranslationProgress] are mounted like
    [uploadVideo]: [.input(schema).mutation(({ input }) => handler(input))]. *)

(** The string a status value is at run time. *)
Definition status_string (s : TranslationStatus) : string :=
  match s with
  | pending => "pending" | processing => "processing"
  | completed => "completed" | failed => "failed"
  end.

Definition translationStatuses : list TranslationStatus :=
  [pending; processing; completed; failed].

(** [translationStatusSchema.parse] on a string. *)
Definition translationStatusSchema (s : string) : option TranslationStatus :=
  List.find (λ st, bool_decide (status_string st = s)) translationStatuses.

Module CreateTranslationRequest.
Record t : Set := mk {
  video_id : Z;
  target_language : string
}.
End CreateTranslationRequest.

Definition createTranslationInputSchema (body : CreateTranslationRequest.t)
  : CreateTranslationInput.t + list string :=
  let target_language :=
    supportedLanguagesSchema (CreateTranslationRequest.target_language body) in
  match target_language with
  | Some l => inl (CreateTranslationInput.mk
                     (CreateTranslationRequest.video_id body) l)
  | None => inr (issue "target_language" target_language)
  end.

Definition appRouter_createTranslation (now : Date)
    (body : CreateTranslationRequest.t) : Promise Translation.t :=
  match createTranslationInputSchema body with
  | inl input => createTranslation now input
  | inr issues => throw (ZodError issues)
  end.

(** [schema.optional()]: [undefined] parses to [undefined], anything else
    goes to the inner schema. *)
Definition optional {A B} (schema : A → option B) (x : option A)
  : option (option B) :=
  match x with
  | None => Some None
  | Some a => match schema a with
              | Some b => Some (Some b)
              | None => None
              end
  end.

(** [z.number().int().min(lo).max(hi)] on a number: it must be an integer
    (a rational in lowest terms with denominator 1) between the bounds. *)
Definition number_int_min_max (lo hi : Z) (q : Qc) : option Z :=
  if bool_decide (Qden q = 1%positive)
     && bool_decide (lo ≤ Qnum q) && bool_decide (Qnum q ≤ hi)
  then Some (Qnum q) else None.

(** The request body of [updateTranslationProgress]: the status still a
    string, the progress any number. The text and date fields are of their
    type already, so their schemas cannot fail on them. *)
Module UpdateTranslationProgressRequest.
Record t : Set := mk {
  translation_id : Z;
  status : option string;
  progress_percentage : option Qc;
  translated_audio_path : option (option string);
  transcript_original : option (option string);
  transcript_translated : option (option string);
  error_message : option (option string);
  started_at : option (option Date);
  completed_at : option (option Date)
}.
End UpdateTranslationProgressRequest.

Definition updateTranslationProgressInputSchema
    (body : UpdateTranslationProgressRequest.t)
  : UpdateTranslationProgressInput.t + list string :=
  let status :=
    optional translationStatusSchema
      (UpdateTranslationProgressRequest.status body) in
  let progress_percentage :=
    optional (number_int_min_max 0 100)
      (UpdateTranslationProgressRequest.progress_percentage body) in
  match status, progress_percentage with
  | Some s, Some p =>
      inl (UpdateTranslationProgressInput.mk
             (UpdateTranslationProgressRequest.translation_id body)
             s p
             (UpdateTranslationProgressRequest.translated_audio_path body)
             (UpdateTranslationProgressRequest.transcript_original body)
             (UpdateTranslationProgressRequest.transcript_translated body)
             (UpdateTranslationProgressRequest.error_message body)
             (UpdateTranslationProgressRequest.started_at body)
             (UpdateTranslationProgressRequest.completed_at body))
  | _, _ =>
      inr (issue "status" status
           ++ issue "progress_percentage" progress_percentage)
  end.

Definition appRouter_updateTranslationProgress (now : Date)
    (body : UpdateTranslationProgressRequest.t)
  : Promise (option Translation.t) :=
  match updateTranslationProgressInputSchema body with
  | inl input => updateTranslationProgress now input
  | inr issues => throw (ZodError issues)
  end.

(** ** The client (client/src/App.tsx, components/VideoUpload.tsx,
    components/TranslationList.tsx)

    Only the parts that compute: the file check and the request of the
    upload form, and the two list updates. React state is the value a
    [useState] cell holds; a setter call gives the next value. *)

Module File.
Record t : Set := mk {
  name : string;
  size : Z;
  type : string
}.
End File.

(** The cells of [VideoUpload] that [handleFileSelection] and the request
    of [handleUpload] read or set. A language cell holds a language or the
    empty string (here [None]). *)
Module VideoUpload.
Record t : Set := mk {
  selectedFile : option File.t;
  originalLanguage : option SupportedLanguage;
  targetLanguage : option SupportedLanguage;
  error : option string
}.
End VideoUpload.

Definition handleFileSelection (file : File.t) (st : VideoUpload.t)
  : VideoUpload.t :=
  if negb (String.prefix "video/" (File.type file)) then
    VideoUpload.mk (VideoUpload.selectedFile st)
      (VideoUpload.originalLanguage st) (VideoUpload.targetLanguage st)
      (Some "Please select a valid video file")
  else if bool_decide (100 * 1024 * 1024 < File.size file) then
    VideoUpload.mk (VideoUpload.selectedFile st)
      (VideoUpload.originalLanguage st) (VideoUpload.targetLanguage st)
      (Some "File size must be less than 100MB")
  else
    VideoUpload.mk (Some file)
      (VideoUpload.originalLanguage st) (VideoUpload.targetLanguage st)
      None.

(** The [uploadData] object of [handleUpload], sent to the [uploadVideo]
    procedure. [Date.now()] is read twice, once for [filename] and once for
    [file_path]; [originalLanguage || null] turns the empty string to
    [null]. *)
Definition uploadData (now_filename now_file_path : Z) (selectedFile : File.t)
    (originalLanguage : option SupportedLanguage) : UploadVideoRequest.t :=
  UploadVideoRequest.mk
    (pretty now_filename +:+ "-" +:+ File.name selectedFile)
    (File.name selectedFile)
    ("/uploads/" +:+ pretty now_file_path +:+ "-" +:+ File.name selectedFile)
    (File.size selectedFile)
    None
    (File.type selectedFile)
    (language_string <$> originalLanguage).

(** [setVideos((prev) => [video, ...prev])] in [App.handleVideoUploaded]. *)
Definition handleVideoUploaded (video : Video.t) (prev : list Video.t)
  : list Video.t :=
  video :: prev.

(** [[...translations].sort((a, b) => b.created_at - a.created_at)] in
    [TranslationList]: [Array.prototype.sort] is stable, so the result is
    the one stable descending arrangement, which [desc] computes. *)
Definition sortedTranslations (translations : list TranslationWithVideo.t)
  : list TranslationWithVideo.t :=
  desc TranslationWithVideo.created_at translations.

(** ** More vocabulary *)

(** The pair that is to be unique among translations. *)
Definition translation_key (t : Translation.t) : Z * SupportedLanguage :=
  (Translation.video_id t, Translation.target_language t).

Definition unique_translations (db : Db) : Prop :=
  NoDup (List.map translation_key (translations db)).

Definition progress_in_range (db : Db) : Prop :=
  ∀ t, t ∈ translations db → 0 ≤ Translation.progress_percentage t ≤ 100.

(** ** The handlers on PostgreSQL's column types

    [serial] and [integer] are 32-bit columns. drizzle sends the values of
    a statement as parameters, and PostgreSQL refuses the statement when a
    parameter meant for such a column is outside the range: the promise of
    [.execute()] rejects with a [DatabaseError] (SQLSTATE 22003,
    numeric_value_out_of_range) and nothing is read or written. A [serial]
    column takes its value from a sequence of the same type, which fails
    (SQLSTATE 2200H) once it has run out. *)

Definition int4 (n : Z) : Prop := -2147483648 ≤ n ≤ 2147483647.

#[global] Instance int4_dec n : Decision (int4 n).
Proof. unfold int4. apply _. Defined.

Module Pg.
Section Columns.

(** PostgreSQL's [real] type is not code of the repository, so it is a
    parameter: [real q] is the number a [real] column gives back after [q]
    was stored in it, or [None] when [q] is outside the type's range. *)
Variable real : Qc → option Qc.

(** [.execute()] of a statement that binds [integers] to 32-bit columns. *)
Definition execute {A} (integers : list Z) (statement : Promise A)
  : Promise A :=
  λ db, if bool_decide (Forall int4 integers) then statement db
        else (Rejected (DatabaseError "22003"), db).

(** The default of a [serial] column: the next value of [seq], if the
    sequence has one. *)
Definition nextval {A} (seq : Db → Z) (insert : Promise A) : Promise A :=
  λ db, if bool_decide (int4 (seq db)) then insert db
        else (Rejected (DatabaseError "2200H"), db).

Definition createTranslation (now : Date) (input : CreateTranslationInput.t)
  : Promise Translation.t :=
  try_rethrow (
    video ← execute [CreateTranslationInput.video_id input]
      (select videos
         (λ v, bool_decide (Video.id v = CreateTranslationInput.video_id input))
         no_order);
    if bool_decide (length video = 0%nat) then
      throw (Error ("Video with ID "
                    +:+ pretty (CreateTranslationInput.video_id input)
                    +:+ " not found"))
    else
    existingTranslation ← execute [CreateTranslationInput.video_id input]
      (select translations
         (λ t, bool_decide (Translation.video_id t
                              = CreateTranslationInput.video_id input)
               && bool_decide (Translation.target_language t
                              = CreateTranslationInput.target_language input))
         no_order);
    if bool_decide (0 < length existingTranslation)%nat then
      throw (Error ("Translation to "
                    +:+ language_string (CreateTranslationInput.target_language input)
                    +:+ " already exists for video "
                    +:+ pretty (CreateTranslationInput.video_id input)))
    else
    execute [CreateTranslationInput.video_id input; 0]
      (nextval translations_id_seq
         (insert_translations_returning now
            (λ id created_at updated_at,
               Translation.mk id
                 (CreateTranslationInput.video_id input)
                 (CreateTranslationInput.target_language input)
                 pending None None None 0 None None None
                 created_at updated_at)))).

Definition uploadVideo (now : Date) (input : UploadVideoInput.t)
  : Promise Video.t :=
  try_rethrow (
    match nullable real (UploadVideoInput.duration input) with
    | None => throw (DatabaseError "22003")
    | Some duration =>
        execute [UploadVideoInput.file_size input]
          (nextval videos_id_seq
             (insert_videos_returning now
                (λ id uploaded_at updated_at,
                   Video.mk id
                     (UploadVideoInput.filename input)
                     (UploadVideoInput.original_filename input)
                     (UploadVideoInput.file_path input)
                     (UploadVideoInput.file_size input)
                     duration
                     (UploadVideoInput.mime_type input)
                     (UploadVideoInput.original_language input)
                     uploaded_at updated_at)))
    end).

Definition getVideoById (video_id : Z) : Promise (option Video.t) :=
  try_rethrow (
    results ← execute [video_id]
      (select videos (λ v, bool_decide (Video.id v = video_id)) no_order);
    match results with
    | [] => mret None
    | video :: _ =>
        mret (Some (Video.mk (Video.id video) (Video.filename video)
                      (Video.original_filename video) (Video.file_path video)
                      (Video.file_size video) (Video.duration video)
                      (Video.mime_type video) (Video.original_language video)
                      (Video.uploaded_at video) (Video.updated_at video)))
    end).

Definition getTranslationsByVideo (video_id : Z)
  : Promise (list Translation.t) :=
  try_rethrow (
    results ← execute [video_id]
      (select translations
         (λ t, bool_decide (Translation.video_id t = video_id))
         (desc Translation.created_at));
    mret (List.map
            (λ translation,
               Translation.mk (Translation.id translation)
                 (Translation.video_id translation)
                 (Translation.target_language translation)
                 (Translation.status translation)
                 (Translation.translated_audio_path translation)
                 (Translation.transcript_original translation)
                 (Translation.transcript_translated translation)
                 (Translation.progress_percentage translation)
                 (Translation.error_message translation)
                 (Translation.started_at translation)
                 (Translation.completed_at translation)
                 (Translation.created_at translation)
                 (Translation.updated_at translation))
            results)).

Definition getTranslationById (translation_id : Z)
  : Promise (option TranslationWithVideo.t) :=
  try_rethrow (
    results ← execute [translation_id]
      (select translations_innerJoin_videos
         (λ r, bool_decide (Translation.id r.1 = translation_id))
         no_order);
    match results with
    | [] => mret None
    | result :: _ => mret (Some (joined_row result))
    end).

(** The integers [.set(updateData)] binds: the progress, when the key is
    present. *)
Definition updateData_integers (u : UpdateData.t) : list Z :=
  match UpdateData.progress_percentage u with
  | Some progress => [progress]
  | None => []
  end.

Definition updateTranslationProgress (now : Date)
    (input : UpdateTranslationProgressInput.t)
  : Promise (option Translation.t) :=
  try_rethrow (
    let updateData := build_updateData now input in
    result ← execute
      (updateData_integers updateData
       ++ [UpdateTranslationProgressInput.translation_id input])
      (update_translations_returning (set_updateData updateData)
         (λ t, bool_decide (Translation.id t
                              = UpdateTranslationProgressInput.translation_id input)));
    match result with
    | [] => mret None
    | row :: _ => mret (Some row)
    end).

End Columns.
End Pg.

(** A [real] column that holds every number as it is, for the worked
    examples (their durations are null or dyadic). *)
Definition exact_real : Qc → option Qc := Some.

(** ** The statements of [createTranslation], one by one

    The handler awaits three statements with no transaction around them;
    between two of them another request may run. [check_video] and
    [check_existing] are its steps 1 and 2, each up to its [throw], and
    [insert_pending] is step 3. *)

Definition check_video (input : CreateTranslationInput.t) : Promise unit :=
  video ← select videos
    (λ v, bool_decide (Video.id v = CreateTranslationInput.video_id input))
    no_order;
  if bool_decide (length video = 0%nat) then
    throw (Error ("Video with ID "
                  +:+ pretty (CreateTranslationInput.video_id input)
                  +:+ " not found"))
  else mret ().

Definition check_existing (input : CreateTranslationInput.t) : Promise unit :=
  existingTranslation ← select translations
    (λ t, bool_decide (Translation.video_id t
                         = CreateTranslationInput.video_id input)
          && bool_decide (Translation.target_language t
                         = CreateTranslationInput.target_language input))
    no_order;
  if bool_decide (0 < length existingTranslation)%nat then
    throw (Error ("Translation to "
                  +:+ language_string (CreateTranslationInput.target_language input)
                  +:+ " already exists for video "
                  +:+ pretty (CreateTranslationInput.video_id input)))
  else mret ().

Definition insert_pending (now : Date) (input : CreateTranslationInput.t)
  : Promise Translation.t :=
  insert_translations_returning now
    (λ id created_at updated_at,
       Translation.mk id
         (CreateTranslationInput.video_id input)
         (CreateTranslationInput.target_language input)
         pending None None None 0 None None None created_at updated_at).

(** Two identical requests, the second starting before the first has
    inserted: both checks of both run, then both inserts. *)
Definition two_requests_interleaved (now1 now2 : Date)
    (input : CreateTranslationInput.t) : Promise (Translation.t * Translation.t) :=
  _ ← check_video input;
  _ ← check_video input;
  _ ← check_existing input;
  _ ← check_existing input;
  first ← insert_pending now1 input;
  second ← insert_pending now2 input;
  mret (first, second).

(** The columns of a translation that no update changes. *)
Definition fixed_columns (t : Translation.t)
  : Z * Z * SupportedLanguage * Date :=
  (Translation.id t, Translation.video_id t, Translation.target_language t,
   Translation.created_at t).

(** * Basic facts *)

Section Monad.
Context {A : Type}.

Lemma try_rethrow_run (body : Promise A) db : try_rethrow body db = body db.
Proof. unfold try_rethrow. by destruct (body db) as [[a|e] db']. Qed.
End Monad.

Section Filter.
Context {R : Type}.
Implicit Types (w : R → bool) (rows : list R).

Lemma filter_none w rows :
  (∀ r, r ∈ rows → w r = false) → List.filter w rows = [].
Proof.
  induction rows as [|r rows IH]; intros H; [done|].
  simpl. rewrite (H r) by left. apply IH. intros r' Hr'. apply H. by right.
Qed.

Lemma filter_some w rows r :
  r ∈ rows → w r = true → List.filter w rows ≠ [].
Proof.
  intros Hin Hw Hnil.
  assert (In r (List.filter w rows)) as Hf.
  { apply filter_In. split; [by apply list_elem_of_In|done]. }
  rewrite Hnil in Hf. destruct Hf.
Qed.

Lemma elem_of_filter_1 w rows r :
  r ∈ List.filter w rows → r ∈ rows ∧ w r = true.
Proof. rewrite !list_elem_of_In. apply filter_In. Qed.

Lemma elem_of_map_key (key : R → Z) rows r :
  r ∈ rows → In (key r) (List.map key rows).
Proof. intros Hr. by apply in_map, list_elem_of_In. Qed.

(** A key column selects at most one row. *)
Lemma filter_key (key : R → Z) rows r k :
  NoDup (List.map key rows) → r ∈ rows → key r = k →
  List.filter (λ x, bool_decide (key x = k)) rows = [r].
Proof.
  induction rows as [|y rows IH]; intros Hnd Hin Hk.
  { by apply elem_of_nil in Hin. }
  simpl in Hnd. apply NoDup_cons in Hnd as [Hy Hnd].
  apply elem_of_cons in Hin as [->|Hin]; simpl.
  - rewrite bool_decide_eq_true_2 by done. f_equal.
    apply filter_none. intros x Hx. apply bool_decide_eq_false.
    intros Heq. apply Hy, list_elem_of_In.
    rewrite Hk, <- Heq. by apply elem_of_map_key.
  - rewrite bool_decide_eq_false_2; [by apply IH|].
    intros Heq. apply Hy, list_elem_of_In.
    rewrite Heq, <- Hk. by apply elem_of_map_key.
Qed.
End Filter.

(** Case analysis on the rows of a concrete table. *)
Ltac each_row H :=
  vm_compute in H; apply list_elem_of_In in H;
  repeat (destruct H as [<-|H]); try (destruct H).

(** * [createTranslation] *)

Section CreateTranslation.
Variables (now : Date) (input : CreateTranslationInput.t).

Let vid := CreateTranslationInput.video_id input.
Let lang := CreateTranslationInput.target_language input.

(** The three ways the handler ends, by what the two lookups find. *)
Lemma createTranslation_no_video db :
  (∀ v, v ∈ videos db → Video.id v ≠ vid) →
  createTranslation now input db = (Rejected (video_not_found input), db).
Proof.
  intros Hno. unfold createTranslation. rewrite try_rethrow_run.
  unfold mbind, Promise_bind, select; simpl.
  rewrite filter_none; [done|].
  intros v Hv. apply bool_decide_eq_false. by apply Hno.
Qed.

Lemma createTranslation_duplicate db v t :
  v ∈ videos db → Video.id v = vid →
  t ∈ translations db →
  Translation.video_id t = vid → Translation.target_language t = lang →
  createTranslation now input db = (Rejected (duplicate_translation input), db).
Proof.
  intros Hv Hvid Ht Htv Htl. unfold createTranslation.
  rewrite try_rethrow_run. unfold mbind, Promise_bind, select; simpl.
  destruct (List.filter _ (videos db)) as [|v' vs] eqn:Hfv.
  { exfalso. eapply filter_some; [exact Hv| |exact Hfv].
    by apply bool_decide_eq_true. }
  simpl.
  destruct (List.filter _ (translations db)) as [|t' ts] eqn:Hft.
  { exfalso. eapply filter_some; [exact Ht| |exact Hft].
    apply andb_true_iff. split; by apply bool_decide_eq_true. }
  unfold no_order. rewrite bool_decide_eq_true_2 by (simpl; lia). done.
Qed.

Lemma createTranslation_fresh db v :
  v ∈ videos db → Video.id v = vid →
  (∀ t, t ∈ translations db →
        Translation.video_id t = vid → Translation.target_language t ≠ lang) →
  createTranslation now input db
  = (Resolved (created_translation now input db),
     db_with_translation db (created_translation now input db)).
Proof.
  intros Hv Hvid Hfresh. unfold createTranslation.
  rewrite try_rethrow_run. unfold mbind, Promise_bind, select; simpl.
  destruct (List.filter _ (videos db)) as [|v' vs] eqn:Hfv.
  { exfalso. eapply filter_some; [exact Hv| |exact Hfv].
    by apply bool_decide_eq_true. }
  simpl. rewrite filter_none; [done|].
  intros t Ht. apply andb_false_iff.
  destruct (decide (Translation.video_id t = vid)) as [Heq|Hne].
  - right. apply bool_decide_eq_false. by apply Hfresh.
  - left. by apply bool_decide_eq_false.
Qed.

(** Whatever the database, the handler ends in one of these three ways. *)
Lemma createTranslation_cases db :
  createTranslation now input db = (Rejected (video_not_found input), db)
  ∨ createTranslation now input db = (Rejected (duplicate_translation input), db)
  ∨ createTranslation now input db
    = (Resolved (created_translation now input db),
       db_with_translation db (created_translation now input db)).
Proof.
  destruct (decide (Exists (λ v, Video.id v = vid) (videos db))) as [Hv|Hv].
  - apply Exists_exists in Hv as (v & Hv & Hvid). right.
    destruct (decide (Exists (λ t, Translation.video_id t = vid
                                   ∧ Translation.target_language t = lang)
                             (translations db))) as [Ht|Ht].
    + apply Exists_exists in Ht as (t & Ht & Htv & Htl). left.
      by eapply createTranslation_duplicate.
    + right. eapply createTranslation_fresh; [exact Hv|exact Hvid|].
      intros t Hin Htv Htl. apply Ht, Exists_exists. by exists t.
  - left. apply createTranslation_no_video. intros v Hin Hvid.
    apply Hv, Exists_exists. by exists v.
Qed.
End CreateTranslation.

(** ** The claims about [createTranslation] *)

(** C1. For a video [v] of the database and a language [lang]: if a
    translation of [v] to [lang] is stored, [createTranslation] rejects
    with the duplicate error, whose message names the language and the
    video id, and writes nothing; and for any language [lang'] for which no
    translation of [v] is stored, [createTranslation] resolves with a new
    row for [(v, lang')], which it has stored. *)
Theorem createTranslation_duplicate_or_new now db v lang :
  v ∈ videos db →
  ((∃ t, t ∈ translations db ∧ Translation.video_id t = Video.id v
         ∧ Translation.target_language t = lang) →
   createTranslation now (CreateTranslationInput.mk (Video.id v) lang) db
   = (Rejected (Error ("Translation to " +:+ language_string lang
                       +:+ " already exists for video " +:+ pretty (Video.id v))),
      db))
  ∧ (∀ lang',
       (∀ t, t ∈ translations db → Translation.video_id t = Video.id v →
             Translation.target_language t ≠ lang') →
       ∃ row db',
         createTranslation now (CreateTranslationInput.mk (Video.id v) lang') db
         = (Resolved row, db')
         ∧ Translation.video_id row = Video.id v
         ∧ Translation.target_language row = lang'
         ∧ translations db' = translations db ++ [row]).
Proof.
  intros Hv. split.
  - intros (t & Ht & Htv & Htl).
    by apply (createTranslation_duplicate now
                (CreateTranslationInput.mk (Video.id v) lang) db v t).
  - intros lang' Hfresh.
    pose (input := CreateTranslationInput.mk (Video.id v) lang').
    exists (created_translation now input db),
           (db_with_translation db (created_translation now input db)).
    split; [|done]. by apply (createTranslation_fresh now input db v).
Qed.

Lemma createTranslation_duplicate_or_new_witness :
  createTranslation 3000 (CreateTranslationInput.mk 1 es) db_one_translation
  = (Rejected (Error "Translation to es already exists for video 1"),
     db_one_translation)
  ∧ ∃ row db',
      createTranslation 3000 (CreateTranslationInput.mk 1 fr) db_one_translation
      = (Resolved row, db')
      ∧ Translation.video_id row = 1
      ∧ Translation.target_language row = fr
      ∧ translations db' = translations db_one_translation ++ [row].
Proof.
  assert (test_video ∈ videos db_one_translation) as Hv by (vm_compute; left).
  destruct (createTranslation_duplicate_or_new 3000 db_one_translation
              test_video es Hv) as [Hdup Hnew].
  split.
  - apply Hdup. exists test_translation. split; [vm_compute; left|done].
  - apply (Hnew fr). intros t Ht _. each_row Ht. discriminate.
Defined.

(** X3. The property as the tests exercise it: once [createTranslation]
    has resolved, the same request made again, at any time, is rejected as
    a duplicate and writes nothing. *)
Lemma createTranslation_twice now now' input db row db' :
  createTranslation now input db = (Resolved row, db') →
  createTranslation now' input db'
  = (Rejected (duplicate_translation input), db').
Proof.
  intros Hrun.
  destruct (decide (Exists (λ v, Video.id v = CreateTranslationInput.video_id input)
                           (videos db))) as [Hv|Hv].
  - apply Exists_exists in Hv as (v & Hv & Hvid).
    destruct (createTranslation_cases now input db) as [H|[H|H]];
      rewrite H in Hrun; [discriminate..|].
    injection Hrun as <- <-.
    apply (createTranslation_duplicate now' input _ v
             (created_translation now input db)); try done.
    simpl. apply elem_of_app. right. by left.
  - rewrite createTranslation_no_video in Hrun; [discriminate|].
    intros v Hin Hvid. apply Hv, Exists_exists. by exists v.
Qed.

(** C3. Whenever [createTranslation] resolves, the translation it returns
    has status [pending], progress 0, and [translated_audio_path],
    [transcript_original], [transcript_translated], [error_message],
    [started_at] and [completed_at] all null. *)
Theorem createTranslation_defaults now input db row db' :
  createTranslation now input db = (Resolved row, db') →
  Translation.status row = pending
  ∧ Translation.progress_percentage row = 0
  ∧ Translation.translated_audio_path row = None
  ∧ Translation.transcript_original row = None
  ∧ Translation.transcript_translated row = None
  ∧ Translation.error_message row = None
  ∧ Translation.started_at row = None
  ∧ Translation.completed_at row = None.
Proof.
  intros Hrun.
  destruct (createTranslation_cases now input db) as [H|[H|H]];
    rewrite H in Hrun; [discriminate..|].
  injection Hrun as <- _. by repeat split.
Qed.

Lemma createTranslation_defaults_witness :
  let row := test_translation in
  Translation.status row = pending
  ∧ Translation.progress_percentage row = 0
  ∧ Translation.translated_audio_path row = None
  ∧ Translation.transcript_original row = None
  ∧ Translation.transcript_translated row = None
  ∧ Translation.error_message row = None
  ∧ Translation.started_at row = None
  ∧ Translation.completed_at row = None.
Proof.
  intros row.
  apply (createTranslation_defaults 2000 (CreateTranslationInput.mk 1 es)
           db_one_video row db_one_translation).
  vm_compute. reflexivity.
Defined.

(** * [updateTranslationProgress] *)

Section UpdateTranslationProgress.
Variables (now : Date) (input : UpdateTranslationProgressInput.t).

Let tid := UpdateTranslationProgressInput.translation_id input.
Let set := set_updateData (build_updateData now input).
Let w := λ t : Translation.t, bool_decide (Translation.id t = tid).

Lemma assign_if_defined_id {A} (field : option A) :
  assign_if_defined field = field.
Proof. by destruct field. Qed.

Lemma updateTranslationProgress_run db :
  updateTranslationProgress now input db
  = (Resolved (head (List.map set (List.filter w (translations db)))),
     db_set_translations db
       (List.map (λ t, if w t then set t else t) (translations db))).
Proof.
  unfold updateTranslationProgress. rewrite try_rethrow_run.
  unfold mbind, Promise_bind, update_translations_returning; simpl.
  fold tid w set.
  by destruct (List.map set (List.filter w (translations db))).
Qed.

(** The update keeps the key columns of every row. *)
Lemma set_updateData_id t : Translation.id (set t) = Translation.id t.
Proof. done. Qed.

Lemma set_updateData_video_id t :
  Translation.video_id (set t) = Translation.video_id t.
Proof. done. Qed.

Lemma update_map_none (rows : list Translation.t) :
  (∀ t, t ∈ rows → Translation.id t ≠ tid) →
  List.map (λ t, if w t then set t else t) rows = rows.
Proof.
  induction rows as [|r rows IH]; intros Hno; [done|].
  simpl. rewrite IH by (intros t Ht; apply Hno; by right).
  unfold w at 1. rewrite bool_decide_eq_false_2; [done|]. apply Hno. by left.
Qed.

(** With [id] a key, the row with the given id is the only one the update
    touches. *)
Lemma update_map_key (rows : list Translation.t) t :
  NoDup (List.map Translation.id rows) →
  t ∈ rows → Translation.id t = tid →
  ∃ i : nat, rows !! i = Some t
      ∧ List.map (λ t, if w t then set t else t) rows = <[i := set t]> rows.
Proof.
  induction rows as [|r rows IH]; intros Hnd Hin Hid.
  { by apply elem_of_nil in Hin. }
  simpl in Hnd. apply NoDup_cons in Hnd as [Hr Hnd].
  apply elem_of_cons in Hin as [->|Hin].
  - exists 0%nat. split; [done|]. simpl.
    unfold w at 1. rewrite bool_decide_eq_true_2 by done. f_equal.
    apply update_map_none. intros t' Ht' Heq. apply Hr, list_elem_of_In.
    rewrite Hid, <- Heq. by apply elem_of_map_key.
  - destruct (IH Hnd Hin Hid) as (i & Hi & Hmap).
    exists (S i). split; [done|]. simpl. rewrite Hmap.
    unfold w at 1. rewrite bool_decide_eq_false_2; [done|].
    intros Heq. apply Hr, list_elem_of_In.
    rewrite Heq, <- Hid. by apply elem_of_map_key.
Qed.
End UpdateTranslationProgress.

(** * The integrity constraints are invariant *)

Lemma wf_emptyDb : wf_db emptyDb.
Proof.
  split; simpl; try (by apply NoDup_nil_2);
    intros x Hx; by apply elem_of_nil in Hx.
Qed.

Lemma NoDup_map_snoc {R} (key : R → Z) (rows : list R) (row : R) (seq : Z) :
  NoDup (List.map key rows) →
  (∀ r, r ∈ rows → key r < seq) →
  key row = seq →
  NoDup (List.map key (rows ++ [row])).
Proof.
  intros Hnd Hseq Hrow. rewrite List.map_app. simpl.
  apply NoDup_app. split; [done|]. split; [|apply NoDup_singleton].
  intros k Hk Hk'. apply list_elem_of_singleton in Hk' as ->.
  apply list_elem_of_In, in_map_iff in Hk as (r & Hkey & Hr).
  apply list_elem_of_In, Hseq in Hr. lia.
Qed.

Lemma wf_uploadVideo now input db :
  wf_db db → wf_db (uploadVideo now input db).2.
Proof.
  intros [Hvk Hvs Htk Hts Hfk]. unfold uploadVideo.
  rewrite try_rethrow_run. unfold insert_videos_returning; simpl.
  split; simpl; [| |done|done|].
  - by apply (NoDup_map_snoc _ _ _ (videos_id_seq db)).
  - intros v [Hv| ->%list_elem_of_singleton]%elem_of_app; simpl; [|lia].
    apply Hvs in Hv. lia.
  - intros t Ht. destruct (Hfk t Ht) as (v & Hv & Hid).
    exists v. split; [|done]. apply elem_of_app. by left.
Qed.

Lemma wf_createTranslation now input db :
  wf_db db → wf_db (createTranslation now input db).2.
Proof.
  intros Hwf.
  destruct (decide (Exists (λ v, Video.id v = CreateTranslationInput.video_id input)
                           (videos db))) as [Hv|Hv].
  - apply Exists_exists in Hv as (v & Hv & Hvid).
    destruct (decide (Exists
        (λ t, Translation.video_id t = CreateTranslationInput.video_id input
              ∧ Translation.target_language t
                = CreateTranslationInput.target_language input)
        (translations db))) as [Ht|Ht].
    + apply Exists_exists in Ht as (t & Ht & Htv & Htl).
      by rewrite (createTranslation_duplicate now input db v t).
    + rewrite (createTranslation_fresh now input db v); [|done|done|].
      2:{ intros t Hin Htv Htl. apply Ht, Exists_exists. by exists t. }
      destruct Hwf as [Hvk Hvs Htk Hts Hfk].
      split; simpl; [done|done| | |].
      * by apply (NoDup_map_snoc _ _ _ (translations_id_seq db)).
      * intros t [Hin| ->%list_elem_of_singleton]%elem_of_app; simpl; [|lia].
        apply Hts in Hin. lia.
      * intros t [Hin| ->%list_elem_of_singleton]%elem_of_app; [by apply Hfk|].
        by exists v.
  - rewrite createTranslation_no_video; [done|].
    intros v Hin Hvid. apply Hv, Exists_exists. by exists v.
Qed.

Lemma wf_updateTranslationProgress now input db :
  wf_db db → wf_db (updateTranslationProgress now input db).2.
Proof.
  intros [Hvk Hvs Htk Hts Hfk]. rewrite updateTranslationProgress_run. simpl.
  set (f := λ t : Translation.t, if bool_decide _ then _ else t).
  assert (∀ t, Translation.id (f t) = Translation.id t) as Hid.
  { intros t. unfold f. by destruct (bool_decide _). }
  assert (∀ t, Translation.video_id (f t) = Translation.video_id t) as Hvid.
  { intros t. unfold f. by destruct (bool_decide _). }
  split; simpl; [done|done| | |].
  - rewrite List.map_map. by rewrite (map_ext _ Translation.id Hid).
  - intros t' (t & <- & Ht)%list_elem_of_In%in_map_iff.
    rewrite Hid. by apply Hts, list_elem_of_In.
  - intros t' (t & <- & Ht)%list_elem_of_In%in_map_iff.
    rewrite Hvid. by apply Hfk, list_elem_of_In.
Qed.

(** ** The claims about [updateTranslationProgress] *)

(** C4. For a stored translation [t] and any input (any subset of the
    eight updatable fields provided), [updateTranslationProgress] resolves
    with the row [t'] that now stands in place of [t]: each provided field
    has the provided value (null included), each omitted field has the
    value it had in [t], [updated_at] is the current time whether or not
    any field is provided, and [id], [video_id], [target_language] and
    [created_at] are those of [t]. Every other row, and the videos, are as
    before. *)
Theorem updateTranslationProgress_patch now input db t :
  wf_db db →
  t ∈ translations db →
  Translation.id t = UpdateTranslationProgressInput.translation_id input →
  ∃ (t' : Translation.t) (i : nat),
    updateTranslationProgress now input db
    = (Resolved (Some t'),
       db_set_translations db (<[i := t']> (translations db)))
    ∧ translations db !! i = Some t
    ∧ patched (UpdateTranslationProgressInput.status input)
        (Translation.status t) (Translation.status t')
    ∧ patched (UpdateTranslationProgressInput.progress_percentage input)
        (Translation.progress_percentage t) (Translation.progress_percentage t')
    ∧ patched (UpdateTranslationProgressInput.translated_audio_path input)
        (Translation.translated_audio_path t) (Translation.translated_audio_path t')
    ∧ patched (UpdateTranslationProgressInput.transcript_original input)
        (Translation.transcript_original t) (Translation.transcript_original t')
    ∧ patched (UpdateTranslationProgressInput.transcript_translated input)
        (Translation.transcript_translated t) (Translation.transcript_translated t')
    ∧ patched (UpdateTranslationProgressInput.error_message input)
        (Translation.error_message t) (Translation.error_message t')
    ∧ patched (UpdateTranslationProgressInput.started_at input)
        (Translation.started_at t) (Translation.started_at t')
    ∧ patched (UpdateTranslationProgressInput.completed_at input)
        (Translation.completed_at t) (Translation.completed_at t')
    ∧ Translation.updated_at t' = now
    ∧ Translation.id t' = Translation.id t
    ∧ Translation.video_id t' = Translation.video_id t
    ∧ Translation.target_language t' = Translation.target_language t
    ∧ Translation.created_at t' = Translation.created_at t.
Proof.
  intros Hwf Hin Hid. pose proof (wf_translations_pkey db Hwf) as Hkey.
  destruct (update_map_key now input _ t Hkey Hin Hid) as (i & Hi & Hmap).
  exists (set_updateData (build_updateData now input) t), i.
  rewrite updateTranslationProgress_run.
  rewrite (filter_key Translation.id _ t _ Hkey Hin Hid), Hmap.
  split; [done|]. split; [done|].
  unfold patched, build_updateData; simpl. rewrite !assign_if_defined_id.
  repeat split; try done;
    match goal with |- context [default _ ?o] => by destruct o end.
Qed.


(** C6. There is no guard on [status]: for a stored translation in any
    status, terminal ones included, and any of the four status values in
    the input, [updateTranslationProgress] resolves with a row of that
    status, and after it every stored row with the given id has that
    status. *)
Theorem updateTranslationProgress_any_status now input db t s :
  t ∈ translations db →
  Translation.id t = UpdateTranslationProgressInput.translation_id input →
  UpdateTranslationProgressInput.status input = Some s →
  ∃ t' db',
    updateTranslationProgress now input db = (Resolved (Some t'), db')
    ∧ Translation.status t' = s
    ∧ Translation.id t' = Translation.id t
    ∧ t' ∈ translations db'
    ∧ ∀ r, r ∈ translations db' → Translation.id r = Translation.id t →
           Translation.status r = s.
Proof.
  intros Hin Hid Hs. rewrite updateTranslationProgress_run.
  set (w := λ r : Translation.t, bool_decide (Translation.id r = _)).
  set (set := set_updateData _).
  assert (∀ r, Translation.status (set r) = s) as Hset.
  { intros r. unfold set, build_updateData; simpl.
    by rewrite assign_if_defined_id, Hs. }
  destruct (List.filter w (translations db)) as [|r rs] eqn:Hf.
  { exfalso. eapply filter_some; [exact Hin| |exact Hf].
    by apply bool_decide_eq_true. }
  assert (r ∈ translations db ∧ w r = true) as [Hr Hwr].
  { apply elem_of_filter_1. rewrite Hf. by left. }
  apply bool_decide_eq_true in Hwr.
  eexists _, _. split; [done|]. split; [apply Hset|].
  split; [simpl; congruence|]. split; simpl.
  - apply list_elem_of_In, in_map_iff. exists r.
    split; [|by apply list_elem_of_In].
    unfold w. by rewrite bool_decide_eq_true_2.
  - intros r' (r0 & <- & Hr0)%list_elem_of_In%in_map_iff.
    destruct (bool_decide (Translation.id r0 = _)) eqn:Hw0;
      [intros _; apply Hset|].
    apply bool_decide_eq_false in Hw0. intros Heq. congruence.
Qed.

Lemma wf_db_one_translation : wf_db db_one_translation.
Proof. apply wf_createTranslation, wf_uploadVideo, wf_emptyDb. Qed.

Lemma updateTranslationProgress_patch_witness :
  ∃ t', (updateTranslationProgress 3000 half_way_input db_one_translation).1
        = Resolved (Some t')
      ∧ Translation.status t' = processing
      ∧ Translation.progress_percentage t' = 50
      ∧ Translation.error_message t' = None
      ∧ Translation.updated_at t' = 3000
      ∧ Translation.created_at t' = 2000.
Proof.
  destruct (updateTranslationProgress_patch 3000 half_way_input
              db_one_translation test_translation)
    as (t' & i & Hrun & _ & Hs & Hp & _ & _ & _ & He & _ & _ & Hu & _ & _ & _ & Hc).
  - apply wf_db_one_translation.
  - vm_compute. left.
  - reflexivity.
  - exists t'. rewrite Hrun. simpl in *. by rewrite He in *.
Defined.

Lemma updateTranslationProgress_any_status_witness :
  let completed_db :=
    (updateTranslationProgress 3000
       (UpdateTranslationProgressInput.mk 1 (Some completed) (Some 100)
          None None None None None (Some (Some 3000)))
       db_one_translation).2 in
  ∃ t' db',
    updateTranslationProgress 4000
      (UpdateTranslationProgressInput.mk 1 (Some pending)
         None None None None None None None)
      completed_db
    = (Resolved (Some t'), db')
    ∧ Translation.status t' = pending.
Proof.
  intros completed_db.
  pose (t := Translation.mk 1 1 es completed None None None 100 None None
               (Some 3000) 2000 3000).
  destruct (updateTranslationProgress_any_status 4000
              (UpdateTranslationProgressInput.mk 1 (Some pending)
                 None None None None None None None)
              completed_db t pending)
    as (t' & db' & Hrun & Hs & _).
  - vm_compute. left.
  - reflexivity.
  - reflexivity.
  - by exists t', db'.
Defined.

(** * [uploadVideo] and [getVideoById] *)

Lemma Video_copy v :
  Video.mk (Video.id v) (Video.filename v) (Video.original_filename v)
    (Video.file_path v) (Video.file_size v) (Video.duration v)
    (Video.mime_type v) (Video.original_language v)
    (Video.uploaded_at v) (Video.updated_at v) = v.
Proof. by destruct v. Qed.

Lemma getVideoById_run video_id db :
  getVideoById video_id db
  = (Resolved (head (List.filter (λ v, bool_decide (Video.id v = video_id))
                                 (videos db))), db).
Proof.
  unfold getVideoById. rewrite try_rethrow_run.
  unfold mbind, Promise_bind, select, no_order; simpl.
  destruct (List.filter _ (videos db)) as [|v vs]; [done|].
  simpl. unfold mret, Promise_ret. by rewrite Video_copy.
Qed.

Lemma uploadVideo_run now input db :
  uploadVideo now input db
  = (Resolved (uploaded_video now input db),
     db_with_video db (uploaded_video now input db)).
Proof. unfold uploadVideo. by rewrite try_rethrow_run. Qed.


(** * The [uploadVideo] procedure: validation before the handler *)

Lemma supportedLanguagesSchema_Some s l :
  supportedLanguagesSchema s = Some l → language_string l = s.
Proof.
  intros [_ H]%find_some. by apply bool_decide_eq_true in H.
Qed.

Lemma language_string_supported l :
  language_string l ∈ supported_language_strings.
Proof.
  apply list_elem_of_In. destruct l; simpl; tauto.
Qed.

Lemma supportedLanguagesSchema_None s :
  s ∉ supported_language_strings → supportedLanguagesSchema s = None.
Proof.
  intros Hs. destruct (supportedLanguagesSchema s) as [l|] eqn:Hl; [|done].
  exfalso. apply Hs. apply supportedLanguagesSchema_Some in Hl as <-.
  apply language_string_supported.
Qed.

(** A field that does not parse makes the whole parse fail, with at least
    one issue. *)
Lemma uploadVideoInputSchema_issues body :
  number_positive (UploadVideoRequest.file_size body) = None
  ∨ nullable real_positive (UploadVideoRequest.duration body) = None
  ∨ nullable supportedLanguagesSchema
      (UploadVideoRequest.original_language body) = None →
  ∃ issues, issues ≠ [] ∧ uploadVideoInputSchema body = inr issues.
Proof.
  intros Hfail. unfold uploadVideoInputSchema.
  destruct (number_positive _) as [fs|],
           (nullable real_positive _) as [d|],
           (nullable supportedLanguagesSchema _) as [l|];
    try (eexists; split; [|reflexivity]; simpl; discriminate).
  by destruct Hfail as [|[|]].
Qed.

(** C9. A request whose [file_size] is not positive, or whose [duration]
    is present and not positive, or whose [original_language] is present
    and not one of the twelve supported strings, is rejected by the
    procedure with the validation error of the schema, and the database is
    unchanged: no video row is created. *)
Theorem appRouter_uploadVideo_invalid now body db :
  ¬ 0 < UploadVideoRequest.file_size body
  ∨ (∃ d, UploadVideoRequest.duration body = Some d ∧ ¬ (0 < d)%Qc)
  ∨ (∃ s, UploadVideoRequest.original_language body = Some s
          ∧ s ∉ supported_language_strings) →
  ∃ issues,
    issues ≠ []
    ∧ appRouter_uploadVideo now body db = (Rejected (ZodError issues), db).
Proof.
  intros Hbad.
  destruct (uploadVideoInputSchema_issues body) as (issues & Hne & Hparse).
  - destruct Hbad as [Hsize|[(d & Hd & Hneg)|(s & Hs & Hlang)]].
    + left. unfold number_positive. by rewrite bool_decide_eq_false_2.
    + right; left. rewrite Hd. unfold nullable, real_positive.
      by rewrite bool_decide_eq_false_2.
    + right; right. rewrite Hs. unfold nullable.
      by rewrite (supportedLanguagesSchema_None s Hlang).
  - exists issues. split; [done|].
    unfold appRouter_uploadVideo. by rewrite Hparse.
Qed.

(** The handler itself trusts its input: called directly, past the
    procedure, it stores whatever it is given. *)
Example uploadVideo_does_not_validate :
  ∃ v db',
    uploadVideo 5000
      (UploadVideoInput.mk "a.mp4" "a.mp4" "/uploads/a.mp4" 0 None "video/mp4"
         None)
      db_one_video
    = (Resolved v, db')
    ∧ Video.file_size v = 0 ∧ v ∈ videos db'.
Proof.
  eexists _, _. split; [apply uploadVideo_run|]. split; [done|].
  simpl. right. left.
Qed.

Lemma appRouter_uploadVideo_invalid_witness :
  ∃ issues,
    issues ≠ []
    ∧ appRouter_uploadVideo 5000
        (UploadVideoRequest.mk "a.mp4" "a.mp4" "/uploads/a.mp4" 0
           (Some (Q2Qc (-(1 # 2)))) "video/mp4" (Some "xx"))
        db_one_video
      = (Rejected (ZodError issues), db_one_video).
Proof.
  apply appRouter_uploadVideo_invalid. left. simpl. lia.
Defined.

(** * Ordered listings *)

Section Desc.
Context {R : Type} (key : R → Date).
Implicit Types (x : R) (rows : list R).

#[local] Instance desc_by_trans : Transitive (desc_by key).
Proof. intros a b c. unfold desc_by. lia. Qed.

Lemma insert_desc_Permutation x rows : insert_desc key x rows ≡ₚ x :: rows.
Proof.
  induction rows as [|y rows IH]; simpl; [done|].
  case_bool_decide; [done|]. rewrite IH. apply Permutation_swap.
Qed.

Lemma desc_Permutation rows : desc key rows ≡ₚ rows.
Proof.
  induction rows as [|x rows IH]; simpl; [done|].
  by rewrite insert_desc_Permutation, IH.
Qed.

Lemma HdRel_insert_desc y x rows :
  key x ≤ key y → HdRel (desc_by key) y rows →
  HdRel (desc_by key) y (insert_desc key x rows).
Proof.
  intros Hxy Hhd. destruct rows as [|z rows]; simpl.
  - by constructor.
  - case_bool_decide; constructor; [done|]. by inversion Hhd.
Qed.

Lemma Sorted_insert_desc x rows :
  Sorted (desc_by key) rows → Sorted (desc_by key) (insert_desc key x rows).
Proof.
  induction 1 as [|y rows Hs IH Hhd]; simpl.
  - by repeat constructor.
  - case_bool_decide as Hle.
    + constructor; [by constructor|]. by constructor.
    + constructor; [done|]. apply HdRel_insert_desc; [lia|done].
Qed.

Lemma Sorted_desc rows : Sorted (desc_by key) (desc key rows).
Proof.
  induction rows as [|x rows IH]; simpl; [constructor|].
  by apply Sorted_insert_desc.
Qed.

(** Every row of an ordered listing is at least as recent as every row
    after it. *)
Lemma StronglySorted_desc rows : StronglySorted (desc_by key) (desc key rows).
Proof. apply Sorted_StronglySorted; [apply _|apply Sorted_desc]. Qed.

(** Rows with equal timestamps keep the order they have in the table. *)
Lemma insert_desc_filter (p : R → bool) x rows :
  (∀ y, y ∈ rows → p y = true → key y ≤ key x) →
  List.filter p (insert_desc key x rows) = List.filter p (x :: rows).
Proof.
  induction rows as [|y rows IH]; intros Hle; [done|].
  simpl. case_bool_decide as Hyx; [done|].
  simpl. destruct (p y) eqn:Hpy.
  { exfalso. apply Hyx, Hle; [by left|done]. }
  apply IH. intros z Hz. apply Hle. by right.
Qed.

Lemma insert_desc_filter_skip (p : R → bool) x rows :
  p x = false →
  List.filter p (insert_desc key x rows) = List.filter p rows.
Proof.
  intros Hpx. induction rows as [|y rows IH]; simpl; [by rewrite Hpx|].
  case_bool_decide; simpl; [by rewrite Hpx|by rewrite IH].
Qed.

Lemma desc_stable (k : Date) rows :
  List.filter (λ r, bool_decide (key r = k)) (desc key rows)
  = List.filter (λ r, bool_decide (key r = k)) rows.
Proof.
  induction rows as [|x rows IH]; [done|].
  cbn [desc foldr]. fold (desc key rows).
  destruct (decide (key x = k)) as [Hk|Hk].
  - rewrite insert_desc_filter.
    + simpl. by rewrite IH.
    + intros y _ Hy%bool_decide_eq_true. lia.
  - rewrite insert_desc_filter_skip by (by apply bool_decide_eq_false).
    rewrite IH. simpl. by rewrite bool_decide_eq_false_2.
Qed.
End Desc.

Lemma filter_no_where {R} (rows : list R) : List.filter no_where rows = rows.
Proof. induction rows as [|r rows IH]; simpl; by rewrite ?IH. Qed.

Lemma Translation_copy t :
  Translation.mk (Translation.id t) (Translation.video_id t)
    (Translation.target_language t) (Translation.status t)
    (Translation.translated_audio_path t) (Translation.transcript_original t)
    (Translation.transcript_translated t) (Translation.progress_percentage t)
    (Translation.error_message t) (Translation.started_at t)
    (Translation.completed_at t) (Translation.created_at t)
    (Translation.updated_at t) = t.
Proof. by destruct t. Qed.

Lemma getVideos_run db :
  getVideos db = (Resolved (desc Video.uploaded_at (videos db)), db).
Proof.
  unfold getVideos. rewrite try_rethrow_run. unfold select.
  by rewrite filter_no_where.
Qed.

Lemma getTranslationsByVideo_run video_id db :
  getTranslationsByVideo video_id db
  = (Resolved (desc Translation.created_at
                 (List.filter (λ t, bool_decide (Translation.video_id t = video_id))
                              (translations db))), db).
Proof.
  unfold getTranslationsByVideo. rewrite try_rethrow_run.
  unfold mbind, Promise_bind, select, mret, Promise_ret; simpl.
  do 2 f_equal. rewrite <- (map_id (desc _ _)) at 2.
  apply map_ext. intros t. apply Translation_copy.
Qed.

Lemma getAllTranslations_run db :
  getAllTranslations db
  = (Resolved (List.map joined_row
                 (desc (λ r, Translation.created_at r.1)
                       (translations_innerJoin_videos db))), db).
Proof.
  unfold getAllTranslations. rewrite try_rethrow_run.
  unfold mbind, Promise_bind, select, mret, Promise_ret; simpl.
  by rewrite filter_no_where.
Qed.

(** * Joined reads *)

Lemma elem_of_innerJoin db t v :
  (t, v) ∈ translations_innerJoin_videos db
  ↔ t ∈ translations db ∧ v ∈ videos db ∧ Translation.video_id t = Video.id v.
Proof.
  unfold translations_innerJoin_videos.
  rewrite list_elem_of_In, in_flat_map. split.
  - intros (t' & Ht' & Hin). apply in_map_iff in Hin as (v' & Heq & Hv').
    injection Heq as -> ->. apply filter_In in Hv' as [Hv' Hon].
    apply bool_decide_eq_true in Hon. by rewrite !list_elem_of_In.
  - intros (Ht & Hv & Hon). exists t. split; [by apply list_elem_of_In|].
    apply in_map, filter_In. split; [by apply list_elem_of_In|].
    by apply bool_decide_eq_true.
Qed.

Lemma translation_of_joined_row t v : translation_of (joined_row (t, v)) = t.
Proof. by destruct t. Qed.

Lemma video_joined_row t v : TranslationWithVideo.video (joined_row (t, v)) = v.
Proof. by destruct v. Qed.

Lemma getTranslationById_run translation_id db :
  getTranslationById translation_id db
  = (Resolved (joined_row <$>
                 head (List.filter
                         (λ r, bool_decide (Translation.id r.1 = translation_id))
                         (translations_innerJoin_videos db))), db).
Proof.
  unfold getTranslationById. rewrite try_rethrow_run.
  unfold mbind, Promise_bind, select, no_order; simpl.
  by destruct (List.filter _ (translations_innerJoin_videos db)).
Qed.

(** C10. [getAllTranslations] resolves (never rejects) with exactly the
    records of the pairs a translation forms with a video of its
    [video_id]; so in every record returned the embedded video is a stored
    video whose id is the record's [video_id], and a translation whose
    [video_id] is the id of no video appears in no record. Likewise
    [getTranslationById]: a record it returns has the requested id and
    embeds the video its [video_id] names, and when the translations with
    the requested id match no video it resolves with null. *)
Theorem joined_reads_embed_owning_video db :
  (∃ rows,
     getAllTranslations db = (Resolved rows, db)
     ∧ (∀ r, r ∈ rows ↔
             ∃ t v, t ∈ translations db ∧ v ∈ videos db
                    ∧ Translation.video_id t = Video.id v
                    ∧ r = joined_row (t, v))
     ∧ (∀ r, r ∈ rows →
             Video.id (TranslationWithVideo.video r)
             = TranslationWithVideo.video_id r
             ∧ TranslationWithVideo.video r ∈ videos db)
     ∧ (∀ t, t ∈ translations db →
             (∀ v, v ∈ videos db → Video.id v ≠ Translation.video_id t) →
             ∀ r, r ∈ rows → translation_of r ≠ t))
  ∧ (∀ translation_id,
       ∃ result,
         getTranslationById translation_id db = (Resolved result, db)
         ∧ (∀ r, result = Some r →
                 TranslationWithVideo.id r = translation_id
                 ∧ Video.id (TranslationWithVideo.video r)
                   = TranslationWithVideo.video_id r
                 ∧ TranslationWithVideo.video r ∈ videos db)
         ∧ ((∀ t, t ∈ translations db → Translation.id t = translation_id →
                  ∀ v, v ∈ videos db → Video.id v ≠ Translation.video_id t) →
            result = None)).
Proof.
  assert (∀ r, r ∈ List.map joined_row
                     (desc (λ r, Translation.created_at r.1)
                           (translations_innerJoin_videos db)) ↔
               ∃ t v, t ∈ translations db ∧ v ∈ videos db
                      ∧ Translation.video_id t = Video.id v
                      ∧ r = joined_row (t, v)) as Hrows.
  { intros r. rewrite list_elem_of_In, in_map_iff. split.
    - intros ([t v] & <- & Hin). exists t, v.
      apply list_elem_of_In in Hin. rewrite desc_Permutation in Hin.
      apply elem_of_innerJoin in Hin as (? & ? & ?). done.
    - intros (t & v & Ht & Hv & Hon & ->). exists (t, v). split; [done|].
      apply list_elem_of_In. rewrite desc_Permutation.
      by apply elem_of_innerJoin. }
  split.
  - eexists. split; [apply getAllTranslations_run|].
    split; [exact Hrows|]. split.
    + intros r (t & v & Ht & Hv & Hon & ->)%Hrows.
      rewrite video_joined_row. split; [|done]. by destruct t.
    + intros t Ht Horphan r (t' & v & Ht' & Hv & Hon & ->)%Hrows Heq.
      rewrite translation_of_joined_row in Heq. subst t'.
      by apply (Horphan v).
  - intros translation_id. eexists.
    split; [apply getTranslationById_run|]. split.
    + intros r Hr.
      destruct (List.filter _ (translations_innerJoin_videos db))
        as [|[t v] rest] eqn:Hf; [done|].
      change (Some (joined_row (t, v)) = Some r) in Hr.
      assert (r = joined_row (t, v)) as -> by congruence. clear Hr.
      pose (w := λ r : Translation.t * Video.t,
                  bool_decide (Translation.id r.1 = translation_id)).
      destruct (elem_of_filter_1 w (translations_innerJoin_videos db) (t, v))
        as [(Ht & Hv & Hon)%elem_of_innerJoin Hid%bool_decide_eq_true].
      { unfold w. rewrite Hf. by left. }
      rewrite video_joined_row. split; [by destruct t|].
      split; [by destruct t|done].
    + intros Horphans. rewrite filter_none; [done|].
      intros [t v] (Ht & Hv & Hon)%elem_of_innerJoin.
      apply bool_decide_eq_false. intros Hid. by apply (Horphans t Ht Hid v).
Qed.

Lemma joined_reads_embed_owning_video_witness :
  (getAllTranslations db_with_orphan).1
  = Resolved [joined_row (test_translation, test_video)]
  ∧ getTranslationById 7 db_with_orphan = (Resolved None, db_with_orphan).
Proof.
  destruct (joined_reads_embed_owning_video db_with_orphan)
    as [_ Hby_id].
  split; [reflexivity|].
  destruct (Hby_id 7) as (result & Hrun & _ & Hnone).
  rewrite Hrun, Hnone; [done|].
  intros t Ht Hid v Hv. each_row Hv. each_row Ht; discriminate.
Defined.

(** With the integrity constraints every translation joins exactly one
    video. *)
Lemma innerJoin_translations db :
  wf_db db → List.map fst (translations_innerJoin_videos db) = translations db.
Proof.
  intros Hwf. unfold translations_innerJoin_videos.
  pose proof (wf_translations_video_id_fkey db Hwf) as Hfk.
  induction (translations db) as [|t ts IH]; [done|].
  simpl. rewrite List.map_app, IH by (intros t' Ht'; apply Hfk; by right).
  destruct (Hfk t) as (v & Hv & Hid); [by left|].
  rewrite (filter_ext _ (λ x, bool_decide (Video.id x = Translation.video_id t)))
    by (intros x; apply bool_decide_ext; naive_solver).
  by rewrite (filter_key Video.id _ v _ (wf_videos_pkey db Hwf) Hv Hid).
Qed.

(** X23. With the integrity constraints the join loses nothing: the
    records [getAllTranslations] resolves with are, up to order, the stored
    translations, each exactly once. *)
Lemma getAllTranslations_complete db :
  wf_db db →
  ∃ rows, getAllTranslations db = (Resolved rows, db)
          ∧ List.map translation_of rows ≡ₚ translations db.
Proof.
  intros Hwf. eexists. split; [apply getAllTranslations_run|].
  rewrite List.map_map.
  rewrite (map_ext _ fst) by (intros [t v]; apply translation_of_joined_row).
  rewrite <- (innerJoin_translations db Hwf).
  apply Permutation_map, desc_Permutation.
Qed.

(** * The scenario of the specification, run on the model *)

(** A request that satisfies the schema reaches the handler and is stored. *)
Lemma appRouter_uploadVideo_valid now body db :
  0 < UploadVideoRequest.file_size body →
  (∀ d, UploadVideoRequest.duration body = Some d → (0 < d)%Qc) →
  (∀ s, UploadVideoRequest.original_language body = Some s →
        s ∈ supported_language_strings) →
  ∃ v, appRouter_uploadVideo now body db = (Resolved v, db_with_video db v)
       ∧ Video.file_size v = UploadVideoRequest.file_size body
       ∧ Video.duration v = UploadVideoRequest.duration body
       ∧ language_string <$> Video.original_language v
         = UploadVideoRequest.original_language body.
Proof.
  intros Hsize Hdur Hlang.
  unfold appRouter_uploadVideo, uploadVideoInputSchema, number_positive.
  rewrite bool_decide_eq_true_2 by done.
  assert (nullable real_positive (UploadVideoRequest.duration body)
          = Some (UploadVideoRequest.duration body)) as ->.
  { destruct (UploadVideoRequest.duration body) as [d|]; [|done].
    simpl. unfold real_positive. by rewrite bool_decide_eq_true_2 by auto. }
  assert (∃ l, nullable supportedLanguagesSchema
                 (UploadVideoRequest.original_language body) = Some l
               ∧ language_string <$> l
                 = UploadVideoRequest.original_language body) as (l & -> & Hl).
  { destruct (UploadVideoRequest.original_language body) as [s|];
      [|by exists None].
    specialize (Hlang s eq_refl). simpl.
    assert (∃ l0, supportedLanguagesSchema s = Some l0) as [l0 Hl0].
    { apply list_elem_of_In in Hlang. simpl in Hlang.
      repeat (destruct Hlang as [<-|Hlang]; [by eexists|]). done. }
    rewrite Hl0. exists (Some l0). split; [done|].
    simpl. f_equal. by apply supportedLanguagesSchema_Some. }
  eexists. rewrite uploadVideo_run. split; [reflexivity|]. by simpl.
Qed.

Example scenario :
  let body := UploadVideoRequest.mk "a.mp4" "a.mp4" "/uploads/a.mp4" 1024000
                None "video/mp4" None in
  let es_for id := CreateTranslationInput.mk id es in
  ∃ a db1 t db2 t2 db3 t3 db4,
    appRouter_uploadVideo 10 body emptyDb = (Resolved a, db1)
    ∧ createTranslation 20 (es_for (Video.id a)) db1 = (Resolved t, db2)
    ∧ Translation.status t = pending
    ∧ Translation.progress_percentage t = 0
    ∧ updateTranslationProgress 30
        (UpdateTranslationProgressInput.mk (Translation.id t) (Some processing)
           (Some 50) None None None None None None) db2
      = (Resolved (Some t2), db3)
    ∧ t2 = Translation.mk 1 1 es processing None None None 50 None None None 20 30
    ∧ updateTranslationProgress 40
        (UpdateTranslationProgressInput.mk (Translation.id t) (Some completed)
           (Some 100) None None None None None (Some (Some 40))) db3
      = (Resolved (Some t3), db4)
    ∧ Translation.status t3 = completed
    ∧ createTranslation 50 (es_for (Video.id a)) db4
      = (Rejected (Error "Translation to es already exists for video 1"), db4).
Proof. repeat eexists. Qed.


(** * Further properties of the handlers *)

(** ** [createTranslation]: what a resolution and a rejection tell *)

Lemma createTranslation_resolved_inv now input db row db' :
  createTranslation now input db = (Resolved row, db') →
  row = created_translation now input db
  ∧ db' = db_with_translation db row
  ∧ (∃ v, v ∈ videos db ∧ Video.id v = CreateTranslationInput.video_id input)
  ∧ (∀ t, t ∈ translations db →
          Translation.video_id t = CreateTranslationInput.video_id input →
          Translation.target_language t
          ≠ CreateTranslationInput.target_language input).
Proof.
  intros Hrun.
  destruct (decide (Exists (λ v, Video.id v = CreateTranslationInput.video_id input)
                           (videos db))) as [Hv|Hv].
  - apply Exists_exists in Hv as (v & Hv & Hvid).
    destruct (decide (Exists
        (λ t, Translation.video_id t = CreateTranslationInput.video_id input
              ∧ Translation.target_language t
                = CreateTranslationInput.target_language input)
        (translations db))) as [Ht|Ht].
    + apply Exists_exists in Ht as (t & Ht & Htv & Htl).
      by rewrite (createTranslation_duplicate now input db v t) in Hrun.
    + assert (∀ t, t ∈ translations db →
                Translation.video_id t = CreateTranslationInput.video_id input →
                Translation.target_language t
                ≠ CreateTranslationInput.target_language input) as Hfresh.
      { intros t Hin Htv Htl. apply Ht, Exists_exists. by exists t. }
      rewrite (createTranslation_fresh now input db v) in Hrun by done.
      injection Hrun as <- <-. repeat split; [|done]. by exists v.
  - rewrite createTranslation_no_video in Hrun; [done|].
    intros v Hin Hvid. apply Hv, Exists_exists. by exists v.
Qed.

Lemma createTranslation_rejected_inv now input db e db' :
  createTranslation now input db = (Rejected e, db') →
  db' = db ∧ (e = video_not_found input ∨ e = duplicate_translation input).
Proof.
  intros Hrun.
  destruct (createTranslation_cases now input db) as [H|[H|H]];
    rewrite H in Hrun; [| |done]; injection Hrun as <- <-; auto.
Qed.

(** X1. A [createTranslation] whose three statements run back to back,
    no other request between them, keeps translations unique per video and
    target language: if no two stored translations share the pair
    (video_id, target_language), none do after the call, whatever its
    outcome. (Nothing but the handler's own check stands for this: the
    table has no unique index, see [createTranslation_race].) *)
Theorem createTranslation_keeps_pairs_unique now input db :
  unique_translations db →
  unique_translations (createTranslation now input db).2.
Proof.
  intros Huniq.
  destruct (createTranslation now input db) as [[row|e] db'] eqn:Hrun; simpl.
  - apply createTranslation_resolved_inv in Hrun as (-> & -> & _ & Hfresh).
    unfold unique_translations; simpl. rewrite List.map_app; simpl.
    apply NoDup_app. split; [done|]. split; [|apply NoDup_singleton].
    intros k Hk ->%list_elem_of_singleton.
    apply list_elem_of_In, in_map_iff in Hk as (t & Hkey & Ht).
    injection Hkey as Hvid Hlang.
    by apply (Hfresh t); [apply list_elem_of_In|..].
  - by apply createTranslation_rejected_inv in Hrun as [-> _].
Qed.

Lemma createTranslation_keeps_pairs_unique_witness :
  unique_translations
    (createTranslation 3000 (CreateTranslationInput.mk 1 fr)
       db_one_translation).2.
Proof.
  apply createTranslation_keeps_pairs_unique.
  unfold unique_translations. vm_compute. apply NoDup_singleton.
Defined.

(** X2. The three writing handlers keep the integrity constraints of the
    schema: after [uploadVideo], [createTranslation] or
    [updateTranslationProgress] the ids of each table are still distinct
    and behind the table's sequence, and every translation still refers to
    a stored video. In particular [createTranslation] never stores a
    translation of a video that does not exist. *)
Theorem writes_keep_constraints now upload create update db :
  wf_db db →
  wf_db (uploadVideo now upload db).2
  ∧ wf_db (createTranslation now create db).2
  ∧ wf_db (updateTranslationProgress now update db).2.
Proof.
  intros Hwf. split; [|split].
  - by apply wf_uploadVideo.
  - by apply wf_createTranslation.
  - by apply wf_updateTranslationProgress.
Qed.

Lemma writes_keep_constraints_witness :
  wf_db (uploadVideo 5000 test_video_input db_one_translation).2
  ∧ wf_db (createTranslation 5000 (CreateTranslationInput.mk 1 fr)
             db_one_translation).2
  ∧ wf_db (updateTranslationProgress 5000 half_way_input db_one_translation).2.
Proof.
  apply writes_keep_constraints, wf_createTranslation, wf_uploadVideo, wf_emptyDb.
Defined.

(** X5. A resolution of [createTranslation] tells that the video was
    stored and that no translation of it to that language was: the
    returned row is for the requested video and language, has the next id
    of the sequence, and was created and last updated at the time of the
    call; it is appended to the translations and the videos are as
    before. *)
Theorem createTranslation_resolution now input db row db' :
  createTranslation now input db = (Resolved row, db') →
  (∃ v, v ∈ videos db ∧ Video.id v = CreateTranslationInput.video_id input)
  ∧ (∀ t, t ∈ translations db →
          Translation.video_id t = CreateTranslationInput.video_id input →
          Translation.target_language t
          ≠ CreateTranslationInput.target_language input)
  ∧ Translation.id row = translations_id_seq db
  ∧ Translation.video_id row = CreateTranslationInput.video_id input
  ∧ Translation.target_language row
    = CreateTranslationInput.target_language input
  ∧ Translation.created_at row = now
  ∧ Translation.updated_at row = now
  ∧ translations db' = translations db ++ [row]
  ∧ translations_id_seq db' = translations_id_seq db + 1
  ∧ videos db' = videos db.
Proof.
  intros (-> & -> & Hv & Hfresh)%createTranslation_resolved_inv.
  by repeat split.
Qed.

Lemma createTranslation_resolution_witness :
  Translation.id test_translation = 1
  ∧ Translation.created_at test_translation = 2000
  ∧ translations db_one_translation = [test_translation].
Proof.
  destruct (createTranslation_resolution 2000 (CreateTranslationInput.mk 1 es)
              db_one_video test_translation db_one_translation)
    as (_ & _ & Hid & _ & _ & Hc & _ & Hts & _); [reflexivity|].
  split; [exact Hid|]. split; [exact Hc|exact Hts].
Defined.

(** ** [updateTranslationProgress]: frame and repetition *)

Section UpdateFrame.
Variables (now : Date) (input : UpdateTranslationProgressInput.t).

Let tid := UpdateTranslationProgressInput.translation_id input.
Let w := λ t : Translation.t, bool_decide (Translation.id t = tid).
Let f := λ (at_ : Date) (t : Translation.t),
  if w t then set_updateData (build_updateData at_ input) t else t.

Lemma update_row_keys at_ t :
  Translation.id (f at_ t) = Translation.id t
  ∧ Translation.video_id (f at_ t) = Translation.video_id t
  ∧ Translation.target_language (f at_ t) = Translation.target_language t
  ∧ Translation.created_at (f at_ t) = Translation.created_at t.
Proof. unfold f. by destruct (w t). Qed.

Lemma set_updateData_again at_ at' t :
  set_updateData (build_updateData at' input)
    (set_updateData (build_updateData at_ input) t)
  = set_updateData (build_updateData at' input) t.
Proof.
  unfold set_updateData, build_updateData; simpl.
  rewrite !assign_if_defined_id.
  destruct input as [? [?|] [?|] [?|] [?|] [?|] [?|] [?|] [?|]]; done.
Qed.

Lemma update_row_again at_ at' t : f at' (f at_ t) = f at' t.
Proof.
  unfold f. destruct (w t) eqn:Hw; [|by rewrite Hw].
  assert (w (set_updateData (build_updateData at_ input) t) = true) as ->
    by done.
  apply set_updateData_again.
Qed.

Lemma update_filter_map at_ (rows : list Translation.t) :
  List.filter w (List.map (f at_) rows)
  = List.map (set_updateData (build_updateData at_ input)) (List.filter w rows).
Proof.
  induction rows as [|t rows IH]; [done|]. simpl.
  destruct (update_row_keys at_ t) as [Hid _].
  assert (w (f at_ t) = w t) as -> by (unfold w; by rewrite Hid).
  destruct (w t) eqn:Hw; [|done]. simpl. rewrite IH. f_equal.
  unfold f. by rewrite Hw.
Qed.
End UpdateFrame.

(** X8. Repeating an update is harmless: the same input applied again,
    at the same or another time, leaves the database and the answer as if
    only the later call had been made. In particular the same call twice
    at one instant is the same as once. *)
Theorem updateTranslationProgress_repeated now now' input db :
  updateTranslationProgress now' input
    (updateTranslationProgress now input db).2
  = updateTranslationProgress now' input db.
Proof.
  rewrite !updateTranslationProgress_run. simpl.
  rewrite (update_filter_map input now).
  rewrite !List.map_map. f_equal.
  - do 2 f_equal. apply map_ext. intros t. apply set_updateData_again.
  - unfold db_set_translations; simpl. f_equal.
    apply map_ext. intros t. apply (update_row_again input now now' t).
Qed.

(** ** Reads after writes *)

Lemma getTranslationById_stored db t :
  wf_db db → t ∈ translations db →
  ∃ v, v ∈ videos db ∧ Video.id v = Translation.video_id t
       ∧ getTranslationById (Translation.id t) db
         = (Resolved (Some (joined_row (t, v))), db).
Proof.
  intros Hwf Ht.
  destruct (wf_translations_video_id_fkey db Hwf t Ht) as (v & Hv & Hid).
  exists v. split; [done|]. split; [done|].
  rewrite getTranslationById_run.
  rewrite (filter_key (λ r, Translation.id r.1) _ (t, v)); [done| | |done].
  - rewrite <- (List.map_map fst Translation.id).
    rewrite (innerJoin_translations db Hwf). apply (wf_translations_pkey db Hwf).
  - by apply elem_of_innerJoin.
Qed.

Lemma updateTranslationProgress_resolved_inv now input db t' db' :
  updateTranslationProgress now input db = (Resolved (Some t'), db') →
  db' = (updateTranslationProgress now input db).2
  ∧ t' ∈ translations db'
  ∧ Translation.id t' = UpdateTranslationProgressInput.translation_id input.
Proof.
  intros Hrun. split; [by rewrite Hrun|].
  rewrite updateTranslationProgress_run in Hrun.
  set (w := λ r : Translation.t, bool_decide (Translation.id r = _)) in Hrun.
  destruct (List.filter w (translations db)) as [|r rs] eqn:Hf; [done|].
  destruct (elem_of_filter_1 w (translations db) r) as [Hr Hw].
  { rewrite Hf. by left. }
  apply bool_decide_eq_true in Hw.
  injection Hrun as <- <-. split; [|done].
  simpl. apply list_elem_of_In, in_map_iff. exists r.
  split; [|by apply list_elem_of_In]. by rewrite bool_decide_eq_true_2.
Qed.

(** X9. With the integrity constraints, [getTranslationById] finds every
    stored translation by its id and returns it joined with the video its
    [video_id] names. *)
Theorem getTranslationById_finds_stored db t :
  wf_db db → t ∈ translations db →
  ∃ r, getTranslationById (Translation.id t) db = (Resolved (Some r), db)
       ∧ translation_of r = t
       ∧ TranslationWithVideo.video r ∈ videos db
       ∧ Video.id (TranslationWithVideo.video r) = Translation.video_id t.
Proof.
  intros Hwf Ht.
  destruct (getTranslationById_stored db t Hwf Ht) as (v & Hv & Hid & Hrun).
  exists (joined_row (t, v)). split; [done|].
  rewrite translation_of_joined_row, video_joined_row. done.
Qed.

Lemma getTranslationById_finds_stored_witness :
  ∃ r, getTranslationById 1 db_one_translation
       = (Resolved (Some r), db_one_translation)
       ∧ translation_of r = test_translation.
Proof.
  destruct (getTranslationById_finds_stored db_one_translation test_translation)
    as (r & Hrun & Ht & _).
  - apply wf_db_one_translation.
  - vm_compute. left.
  - by exists r.
Defined.

(** X10. What [updateTranslationProgress] returns is what a following
    [getTranslationById] of the same id reads, joined with the video: with
    the integrity constraints, the update is visible to the next read. *)
Theorem updateTranslationProgress_then_getTranslationById now input db t' db' :
  wf_db db →
  updateTranslationProgress now input db = (Resolved (Some t'), db') →
  ∃ r, getTranslationById
         (UpdateTranslationProgressInput.translation_id input) db'
       = (Resolved (Some r), db')
       ∧ translation_of r = t'.
Proof.
  intros Hwf (-> & Ht' & <-)%updateTranslationProgress_resolved_inv.
  destruct (getTranslationById_stored _ t'
              (wf_updateTranslationProgress now input db Hwf) Ht')
    as (v & _ & _ & Hrun).
  exists (joined_row (t', v)). split; [done|].
  apply translation_of_joined_row.
Qed.

Lemma updateTranslationProgress_then_getTranslationById_witness :
  ∃ r, getTranslationById 1
         (updateTranslationProgress 3000 half_way_input db_one_translation).2
       = (Resolved (Some r),
          (updateTranslationProgress 3000 half_way_input db_one_translation).2)
       ∧ TranslationWithVideo.status r = processing
       ∧ TranslationWithVideo.progress_percentage r = 50.
Proof.
  destruct (updateTranslationProgress_then_getTranslationById 3000
              half_way_input db_one_translation
              (Translation.mk 1 1 es processing None None None 50 None None None
                 2000 3000)
              (updateTranslationProgress 3000 half_way_input
                 db_one_translation).2)
    as (r & Hrun & Hr).
  - apply wf_db_one_translation.
  - reflexivity.
  - exists r. split; [exact Hrun|]. by destruct r; injection Hr as -> -> -> ->.
Defined.

(** X11. A translation just created is what its reads return: with the
    integrity constraints, [getTranslationById] of the new id resolves
    with the new row joined with its video, and [getTranslationsByVideo]
    of that video lists it. *)
Theorem createTranslation_then_reads now input db row db' :
  wf_db db →
  createTranslation now input db = (Resolved row, db') →
  (∃ r, getTranslationById (Translation.id row) db' = (Resolved (Some r), db')
        ∧ translation_of r = row
        ∧ Video.id (TranslationWithVideo.video r)
          = CreateTranslationInput.video_id input)
  ∧ (∃ ts, getTranslationsByVideo (CreateTranslationInput.video_id input) db'
           = (Resolved ts, db')
           ∧ row ∈ ts).
Proof.
  intros Hwf Hrun.
  assert (wf_db db') as Hwf'.
  { pose proof (wf_createTranslation now input db Hwf) as H.
    by rewrite Hrun in H. }
  apply createTranslation_resolved_inv in Hrun as (Hrow & -> & _ & _).
  assert (row ∈ translations (db_with_translation db row)) as Hin.
  { simpl. apply elem_of_app. right. by left. }
  split.
  - destruct (getTranslationById_stored _ row Hwf' Hin) as (v & _ & Hid & Hget).
    exists (joined_row (row, v)). split; [done|].
    rewrite translation_of_joined_row, video_joined_row.
    split; [done|]. by rewrite Hid, Hrow.
  - eexists. split; [apply getTranslationsByVideo_run|].
    rewrite desc_Permutation. apply list_elem_of_In, filter_In.
    split; [by apply list_elem_of_In|].
    apply bool_decide_eq_true. by rewrite Hrow.
Qed.

Lemma createTranslation_then_reads_witness :
  (∃ r, getTranslationById 1 db_one_translation
        = (Resolved (Some r), db_one_translation)
        ∧ translation_of r = test_translation)
  ∧ ∃ ts, getTranslationsByVideo 1 db_one_translation
          = (Resolved ts, db_one_translation)
          ∧ test_translation ∈ ts.
Proof.
  destruct (createTranslation_then_reads 2000 (CreateTranslationInput.mk 1 es)
              db_one_video test_translation db_one_translation)
    as [(r & Hget & Hr & _) Hlist].
  - apply wf_uploadVideo, wf_emptyDb.
  - reflexivity.
  - split; [by exists r|exact Hlist].
Defined.



(** ** Listings, and what the client does with them *)

Section DescMore.
Context {R : Type} (key : R → Date).

(** An ordered list is a fixed point of the ordering. *)
Lemma desc_of_sorted (rows : list R) :
  Sorted (desc_by key) rows → desc key rows = rows.
Proof.
  induction 1 as [|x rows Hs IH Hhd]; [done|].
  cbn [desc foldr]. fold (desc key rows). rewrite IH.
  destruct Hhd as [|y rows' Hxy]; [done|].
  simpl. by rewrite bool_decide_eq_true_2.
Qed.

(** A row newer than all the others, last in the table, comes first. *)
Lemma desc_snoc_newest (rows : list R) (x : R) :
  (∀ r, r ∈ rows → key r < key x) →
  desc key (rows ++ [x]) = x :: desc key rows.
Proof.
  induction rows as [|r rows IH]; intros Hnew; [done|].
  cbn [app desc foldr]. fold (desc key (rows ++ [x])) (desc key rows).
  rewrite IH by (intros r' Hr'; apply Hnew; by right).
  simpl. rewrite bool_decide_eq_false_2; [done|].
  assert (key r < key x) by (apply Hnew; by left). lia.
Qed.
End DescMore.

(** X15. The list [getAllTranslations] resolves with is already in the
    order in which [TranslationList] shows it: sorting it again on the
    client changes nothing. *)
Theorem sortedTranslations_of_getAllTranslations db :
  ∃ rows, getAllTranslations db = (Resolved rows, db)
          ∧ sortedTranslations rows = rows.
Proof.
  eexists. split; [apply getAllTranslations_run|].
  apply desc_of_sorted.
  apply (Sorted_fmap joined_row (desc_by (λ r, Translation.created_at r.1))).
  - by intros [t1 v1] [t2 v2].
  - apply Sorted_desc.
Qed.

Lemma innerJoin_uploadVideo now input db :
  wf_db db →
  translations_innerJoin_videos (uploadVideo now input db).2
  = translations_innerJoin_videos db.
Proof.
  intros Hwf. rewrite uploadVideo_run. unfold translations_innerJoin_videos.
  simpl. rewrite !flat_map_concat_map. f_equal. apply map_ext_in.
  intros t Ht%list_elem_of_In. f_equal.
  rewrite List.filter_app. simpl.
  rewrite bool_decide_eq_false_2; [by rewrite app_nil_r|].
  destruct (wf_translations_video_id_fkey db Hwf t Ht) as (v & Hv & <-).
  apply (wf_videos_seq db Hwf) in Hv. lia.
Qed.

(** X16. Uploading a video disturbs nothing that is stored: with the
    integrity constraints, after [uploadVideo] every video stored before
    is still found by [getVideoById], and [getAllTranslations] lists what
    it listed before. *)
Theorem uploadVideo_disturbs_nothing now input db :
  wf_db db →
  let db' := (uploadVideo now input db).2 in
  (∀ v, v ∈ videos db → getVideoById (Video.id v) db' = (Resolved (Some v), db'))
  ∧ translations db' = translations db
  ∧ (getAllTranslations db').1 = (getAllTranslations db).1.
Proof.
  intros Hwf db'. split; [|split].
  - intros v Hv. rewrite getVideoById_run.
    rewrite (filter_key Video.id _ v); [done| |  |done].
    + apply (wf_videos_pkey db' (wf_uploadVideo now input db Hwf)).
    + unfold db'. rewrite uploadVideo_run. simpl. apply elem_of_app. by left.
  - unfold db'. by rewrite uploadVideo_run.
  - rewrite !getAllTranslations_run. simpl. unfold db'.
    by rewrite innerJoin_uploadVideo.
Qed.

Lemma uploadVideo_disturbs_nothing_witness :
  let db' := (uploadVideo 5000 test_video_input db_one_translation).2 in
  getVideoById 1 db' = (Resolved (Some test_video), db')
  ∧ (getAllTranslations db').1 = (getAllTranslations db_one_translation).1.
Proof.
  intros db'.
  destruct (uploadVideo_disturbs_nothing 5000 test_video_input
              db_one_translation wf_db_one_translation) as (Hv & _ & Hall).
  split; [|exact Hall]. apply (Hv test_video). vm_compute. left.
Defined.

Lemma getAllTranslations_complete_witness :
  ∃ rows, getAllTranslations db_one_translation
          = (Resolved rows, db_one_translation)
          ∧ List.map translation_of rows ≡ₚ [test_translation].
Proof.
  apply (getAllTranslations_complete db_one_translation wf_db_one_translation).
Defined.

Lemma createTranslation_twice_witness :
  createTranslation 3000 (CreateTranslationInput.mk 1 es) db_one_translation
  = (Rejected (Error "Translation to es already exists for video 1"),
     db_one_translation).
Proof.
  apply (createTranslation_twice 2000 3000 (CreateTranslationInput.mk 1 es)
           db_one_video test_translation db_one_translation).
  reflexivity.
Defined.

(** * The procedures: what the schemas let through *)

Lemma supportedLanguagesSchema_language_string l :
  supportedLanguagesSchema (language_string l) = Some l.
Proof. by destruct l. Qed.

Lemma translationStatusSchema_status_string st :
  translationStatusSchema (status_string st) = Some st.
Proof. by destruct st. Qed.

Lemma translationStatusSchema_Some s st :
  translationStatusSchema s = Some st → status_string st = s.
Proof. intros [_ H]%find_some. by apply bool_decide_eq_true in H. Qed.

Lemma number_positive_Some n m : number_positive n = Some m ↔ 0 < n ∧ m = n.
Proof.
  unfold number_positive.
  case_bool_decide; (split; [intros [= <-]|intros [? ->]]); done.
Qed.

Lemma nullable_real_positive_Some d r :
  nullable real_positive d = Some r ↔ r = d ∧ ∀ q, d = Some q → (0 < q)%Qc.
Proof.
  destruct d as [q|]; simpl.
  - unfold real_positive.
    case_bool_decide as Hq; (split; [intros [= <-]|intros [-> Hpos]]).
    + split; [done|]. by intros ? [= <-].
    + done.
    + destruct Hq. by apply Hpos.
  - split; [intros [= <-]|intros [-> _]]; done.
Qed.

Lemma nullable_supportedLanguagesSchema_Some s r :
  nullable supportedLanguagesSchema s = Some r
  ↔ language_string <$> r = s
    ∧ ∀ x, s = Some x → x ∈ supported_language_strings.
Proof.
  destruct s as [x|]; simpl.
  - destruct (supportedLanguagesSchema x) as [l|] eqn:Hl; split.
    + intros [= <-]. apply supportedLanguagesSchema_Some in Hl as <-.
      split; [done|]. intros ? [= <-]. apply language_string_supported.
    + intros [Hr _]. destruct r as [l'|]; [|done]. injection Hr as <-.
      rewrite supportedLanguagesSchema_language_string in Hl. congruence.
    + done.
    + intros [Hr _]. destruct r as [l'|]; [|done]. injection Hr as <-.
      by rewrite supportedLanguagesSchema_language_string in Hl.
  - split; [intros [= <-]|intros [Hr _]; destruct r]; done.
Qed.

Lemma number_int_min_max_Some lo hi q n :
  number_int_min_max lo hi q = Some n ↔ lo ≤ n ≤ hi ∧ q = Qc_of_Z n.
Proof.
  unfold number_int_min_max. split.
  - destruct (bool_decide (Qden q = 1%positive)) eqn:Hden; [|done].
    destruct (bool_decide (lo ≤ Qnum q)) eqn:Hlo; [|done].
    destruct (bool_decide (Qnum q ≤ hi)) eqn:Hhi; [|done].
    simpl. intros [= <-].
    apply bool_decide_eq_true in Hden, Hlo, Hhi. split; [lia|].
    apply Qc_is_canon. destruct q as [[num den] Hcanon]; simpl in *.
    by subst den.
  - intros [Hn ->]. simpl.
    by rewrite !bool_decide_eq_true_2 by (simpl; lia).
Qed.

(** X17. [uploadVideoInputSchema] accepts a request exactly when
    [file_size] is positive, [duration] is null or positive and
    [original_language] is null or one of the twelve supported strings; and
    the input it hands to the handler has the fields of the request
    unchanged. *)
Theorem uploadVideoInputSchema_accepts body :
  ((∃ input, uploadVideoInputSchema body = inl input)
   ↔ 0 < UploadVideoRequest.file_size body
     ∧ (∀ d, UploadVideoRequest.duration body = Some d → (0 < d)%Qc)
     ∧ (∀ s, UploadVideoRequest.original_language body = Some s →
             s ∈ supported_language_strings))
  ∧ (∀ input,
       uploadVideoInputSchema body = inl input →
       UploadVideoInput.filename input = UploadVideoRequest.filename body
       ∧ UploadVideoInput.original_filename input
         = UploadVideoRequest.original_filename body
       ∧ UploadVideoInput.file_path input = UploadVideoRequest.file_path body
       ∧ UploadVideoInput.file_size input = UploadVideoRequest.file_size body
       ∧ UploadVideoInput.duration input = UploadVideoRequest.duration body
       ∧ UploadVideoInput.mime_type input = UploadVideoRequest.mime_type body
       ∧ language_string <$> UploadVideoInput.original_language input
         = UploadVideoRequest.original_language body).
Proof.
  unfold uploadVideoInputSchema.
  destruct (number_positive _) as [fs|] eqn:Hfs;
    [apply number_positive_Some in Hfs as [Hpos ->]|].
  2:{ split; [|done]. split; [by intros [? ?]|].
      intros (Hpos & _). assert (number_positive
        (UploadVideoRequest.file_size body) = Some
        (UploadVideoRequest.file_size body)) by by apply number_positive_Some.
      congruence. }
  destruct (nullable real_positive _) as [d|] eqn:Hd;
    [apply nullable_real_positive_Some in Hd as [-> Hd]|].
  2:{ split; [|done]. split; [by intros [? ?]|].
      intros (_ & Hdur & _). assert (nullable real_positive
        (UploadVideoRequest.duration body) = Some
        (UploadVideoRequest.duration body))
        by by apply nullable_real_positive_Some.
      congruence. }
  destruct (nullable supportedLanguagesSchema _) as [l|] eqn:Hl.
  - apply nullable_supportedLanguagesSchema_Some in Hl as [Hl Hsup].
    split; [split; [done|by eexists]|]. by intros input [= <-].
  - split; [|done]. split; [by intros [? ?]|].
    intros (_ & _ & Hsup).
    destruct (UploadVideoRequest.original_language body) as [s|] eqn:Hs;
      [|done].
    specialize (Hsup s eq_refl). simpl in Hl.
    destruct (supportedLanguagesSchema s) eqn:Hp; [done|].
    apply list_elem_of_In in Hsup. simpl in Hsup.
    repeat (destruct Hsup as [<-|Hsup]; [done|]). done.
Qed.

Lemma updateTranslationProgressInputSchema_inl body input :
  updateTranslationProgressInputSchema body = inl input →
  UpdateTranslationProgressInput.translation_id input
  = UpdateTranslationProgressRequest.translation_id body
  ∧ (∀ p, UpdateTranslationProgressInput.progress_percentage input = Some p →
          0 ≤ p ≤ 100
          ∧ UpdateTranslationProgressRequest.progress_percentage body
            = Some (Qc_of_Z p))
  ∧ status_string <$> UpdateTranslationProgressInput.status input
    = UpdateTranslationProgressRequest.status body.
Proof.
  unfold updateTranslationProgressInputSchema, optional.
  destruct (UpdateTranslationProgressRequest.status body) as [s|];
    [destruct (translationStatusSchema s) as [st|] eqn:Hst|];
    (destruct (UpdateTranslationProgressRequest.progress_percentage body)
       as [q|]; [destruct (number_int_min_max 0 100 q) as [n|] eqn:Hn|]);
    try done; intros [= <-]; simpl;
    (split; [done|]); (split; [|try done]).
  all: try (intros p [= <-]; by apply number_int_min_max_Some in Hn as [? ->]).
  all: try done.
  all: f_equal; by apply translationStatusSchema_Some.
Qed.

(** X19. Through the procedures the stored progress stays a percentage:
    if every stored [progress_percentage] is between 0 and 100, it still is
    after any request to the [updateTranslationProgress],
    [createTranslation] or [uploadVideo] procedure. *)
Theorem procedures_keep_progress_in_range now db :
  progress_in_range db →
  (∀ body, progress_in_range (appRouter_updateTranslationProgress now body db).2)
  ∧ (∀ body, progress_in_range (appRouter_createTranslation now body db).2)
  ∧ (∀ body, progress_in_range (appRouter_uploadVideo now body db).2).
Proof.
  intros Hrange. split; [|split]; intros body.
  - unfold appRouter_updateTranslationProgress.
    destruct (updateTranslationProgressInputSchema body) as [input|issues]
      eqn:Hparse; [|done].
    apply updateTranslationProgressInputSchema_inl in Hparse as (_ & Hp & _).
    rewrite updateTranslationProgress_run. simpl.
    intros t' (t & <- & Ht%list_elem_of_In)%list_elem_of_In%in_map_iff.
    destruct (bool_decide _); [|by apply Hrange].
    unfold set_updateData, build_updateData; simpl.
    rewrite assign_if_defined_id.
    destruct (UpdateTranslationProgressInput.progress_percentage input)
      as [p|]; simpl; [by apply Hp|by apply Hrange].
  - unfold appRouter_createTranslation.
    destruct (createTranslationInputSchema body) as [input|issues]; [|done].
    destruct (createTranslation_cases now input db) as [H|[H|H]];
      rewrite H; [done..|]. simpl.
    intros t [Ht| ->%list_elem_of_singleton]%elem_of_app;
      [by apply Hrange|done].
  - unfold appRouter_uploadVideo.
    destruct (uploadVideoInputSchema body) as [input|issues]; [|done].
    by rewrite uploadVideo_run.
Qed.

Lemma procedures_keep_progress_in_range_witness :
  progress_in_range
    (appRouter_updateTranslationProgress 3000
       (UpdateTranslationProgressRequest.mk 1 (Some "processing")
          (Some (Qc_of_Z 50)) None None None None None None)
       db_one_translation).2.
Proof.
  apply procedures_keep_progress_in_range.
  intros t Ht. each_row Ht. done.
Defined.

(** The handler alone does not keep it: past the procedure, any number is
    stored. *)
Example updateTranslationProgress_does_not_validate :
  ¬ progress_in_range
      (updateTranslationProgress 3000
         (UpdateTranslationProgressInput.mk 1 None (Some 150)
            None None None None None None)
         db_one_translation).2.
Proof.
  intros Hrange.
  assert (0 ≤ 150 ≤ 100) by
    (apply (Hrange (Translation.mk 1 1 es pending None None None 150 None None
                      None 2000 3000)); vm_compute; left).
  lia.
Qed.

(** X20. A request to the [updateTranslationProgress] procedure whose
    [status] is not one of the four status strings, or whose
    [progress_percentage] is not an integer from 0 to 100, is rejected
    with the validation error before the handler runs: nothing is
    written. *)
Theorem appRouter_updateTranslationProgress_invalid now body db :
  (∃ s, UpdateTranslationProgressRequest.status body = Some s
        ∧ s ∉ ["pending"; "processing"; "completed"; "failed"])
  ∨ (∃ q, UpdateTranslationProgressRequest.progress_percentage body = Some q
          ∧ ¬ ∃ n, 0 ≤ n ≤ 100 ∧ q = Qc_of_Z n) →
  ∃ issues,
    issues ≠ []
    ∧ appRouter_updateTranslationProgress now body db
      = (Rejected (ZodError issues), db).
Proof.
  intros Hbad.
  unfold appRouter_updateTranslationProgress,
    updateTranslationProgressInputSchema.
  assert (optional translationStatusSchema
            (UpdateTranslationProgressRequest.status body) = None
          ∨ optional (number_int_min_max 0 100)
              (UpdateTranslationProgressRequest.progress_percentage body)
            = None) as Hnone.
  { destruct Hbad as [(s & -> & Hs)|(q & -> & Hq)]; [left|right]; simpl.
    - destruct (translationStatusSchema s) as [st|] eqn:Hst; [|done].
      exfalso. apply Hs. apply translationStatusSchema_Some in Hst as <-.
      apply list_elem_of_In. destruct st; simpl; tauto.
    - destruct (number_int_min_max 0 100 q) as [n|] eqn:Hn; [|done].
      exfalso. apply Hq. exists n. by apply number_int_min_max_Some. }
  destruct (optional translationStatusSchema _) as [s|],
           (optional (number_int_min_max 0 100) _) as [p|];
    try (eexists; split; [|reflexivity]; simpl; discriminate).
  by destruct Hnone.
Qed.

Lemma appRouter_updateTranslationProgress_invalid_witness :
  ∃ issues,
    issues ≠ []
    ∧ appRouter_updateTranslationProgress 3000
        (UpdateTranslationProgressRequest.mk 1 (Some "done")
           (Some (Qc_of_Z 50)) None None None None None None)
        db_one_translation
      = (Rejected (ZodError issues), db_one_translation).
Proof.
  apply appRouter_updateTranslationProgress_invalid. left.
  exists "done". split; [done|].
  intros Hin. apply list_elem_of_In in Hin. simpl in Hin.
  repeat (destruct Hin as [Hin|Hin]; [discriminate Hin|]). done.
Defined.

(** X21. The [createTranslation] procedure checks the language before it
    looks at the database: a [target_language] that is not one of the
    twelve supported strings is rejected with the validation error, also
    when the video does not exist, and nothing is written; a supported one
    is handed to the handler as the language it spells. *)
Theorem appRouter_createTranslation_language now video_id db :
  (∀ s, s ∉ supported_language_strings →
        appRouter_createTranslation now
          (CreateTranslationRequest.mk video_id s) db
        = (Rejected (ZodError ["target_language"]), db))
  ∧ (∀ l, appRouter_createTranslation now
            (CreateTranslationRequest.mk video_id (language_string l)) db
          = createTranslation now (CreateTranslationInput.mk video_id l) db).
Proof.
  unfold appRouter_createTranslation, createTranslationInputSchema. split.
  - intros s Hs. simpl. by rewrite (supportedLanguagesSchema_None s Hs).
  - intros l. simpl. by rewrite supportedLanguagesSchema_language_string.
Qed.

Lemma appRouter_createTranslation_language_witness :
  appRouter_createTranslation 3000 (CreateTranslationRequest.mk 999 "xx")
    db_one_translation
  = (Rejected (ZodError ["target_language"]), db_one_translation).
Proof.
  destruct (appRouter_createTranslation_language 3000 999 db_one_translation)
    as [Hbad _].
  apply Hbad. intros Hin. apply list_elem_of_In in Hin. simpl in Hin.
  repeat (destruct Hin as [Hin|Hin]; [discriminate Hin|]). done.
Defined.

(** * The upload form against the procedure *)

(** X22. A file that [handleFileSelection] accepts (a video type, at most
    100MB) becomes the selected file and clears the error; the request
    [handleUpload] then builds from it is stored by the [uploadVideo]
    procedure, with the file's name, size and type, no duration and the
    chosen original language, exactly when the file is not empty. An empty
    file passes the form and is rejected by the server for its
    [file_size], nothing being stored. *)
Theorem selected_file_upload file st now_filename now_file_path now db :
  String.prefix "video/" (File.type file) = true →
  File.size file ≤ 100 * 1024 * 1024 →
  let st' := handleFileSelection file st in
  let body :=
    uploadData now_filename now_file_path file (VideoUpload.originalLanguage st') in
  VideoUpload.selectedFile st' = Some file
  ∧ VideoUpload.error st' = None
  ∧ (0 < File.size file →
     ∃ v, appRouter_uploadVideo now body db = (Resolved v, db_with_video db v)
          ∧ Video.original_filename v = File.name file
          ∧ Video.file_size v = File.size file
          ∧ Video.mime_type v = File.type file
          ∧ Video.duration v = None
          ∧ Video.original_language v = VideoUpload.originalLanguage st)
  ∧ (File.size file ≤ 0 →
     appRouter_uploadVideo now body db = (Rejected (ZodError ["file_size"]), db)).
Proof.
  intros Htype Hsize st' body.
  assert (st' = VideoUpload.mk (Some file) (VideoUpload.originalLanguage st)
                  (VideoUpload.targetLanguage st) None) as Hst'.
  { unfold st', handleFileSelection. rewrite Htype. simpl.
    by rewrite bool_decide_eq_false_2 by lia. }
  unfold body. rewrite Hst'. simpl. split; [done|]. split; [done|].
  unfold appRouter_uploadVideo, uploadVideoInputSchema, uploadData; simpl.
  assert (nullable supportedLanguagesSchema
            (language_string <$> VideoUpload.originalLanguage st)
          = Some (VideoUpload.originalLanguage st)) as ->.
  { destruct (VideoUpload.originalLanguage st) as [l|]; [|done].
    simpl. by rewrite supportedLanguagesSchema_language_string. }
  unfold number_positive. split.
  - intros Hpos. rewrite bool_decide_eq_true_2 by done.
    eexists. rewrite uploadVideo_run. split; [reflexivity|]. done.
  - intros Hempty. by rewrite bool_decide_eq_false_2 by lia.
Qed.

Lemma selected_file_upload_witness :
  let file := File.mk "empty.mp4" 0 "video/mp4" in
  let st := VideoUpload.mk None (Some en) None None in
  VideoUpload.selectedFile (handleFileSelection file st) = Some file
  ∧ appRouter_uploadVideo 5000 (uploadData 4000 4001 file (Some en)) db_one_video
    = (Rejected (ZodError ["file_size"]), db_one_video).
Proof.
  intros file st.
  destruct (selected_file_upload file st 4000 4001 5000 db_one_video)
    as (Hsel & _ & _ & Hempty).
  - reflexivity.
  - simpl. lia.
  - split; [exact Hsel|]. apply Hempty. simpl. lia.
Defined.


(** * The handlers on the column types *)

Section Execute.
Context {A : Type}.
Implicit Types (statement : Promise A).

Lemma execute_in_range integers statement db :
  Forall int4 integers → Pg.execute integers statement db = statement db.
Proof. intros H. unfold Pg.execute. by rewrite bool_decide_eq_true_2. Qed.

Lemma execute_out_of_range integers statement db :
  ¬ Forall int4 integers →
  Pg.execute integers statement db = (Rejected (DatabaseError "22003"), db).
Proof. intros H. unfold Pg.execute. by rewrite bool_decide_eq_false_2. Qed.
End Execute.

Lemma Forall_int4_1 n : Forall int4 [n] ↔ int4 n.
Proof. rewrite Forall_singleton. done. Qed.

(** ** The two layers agree on values in range *)





Lemma Pg_getTranslationById_exact translation_id db :
  int4 translation_id →
  Pg.getTranslationById translation_id db = getTranslationById translation_id db.
Proof.
  intros Hid. unfold Pg.getTranslationById, getTranslationById.
  rewrite !try_rethrow_run. unfold mbind, Promise_bind.
  by rewrite execute_in_range by by apply Forall_int4_1.
Qed.







Lemma Pg_uploadVideo_resolved_inv real now input db video db' :
  Pg.uploadVideo real now input db = (Resolved video, db') →
  db' = db_with_video db video
  ∧ Video.id video = videos_id_seq db
  ∧ Video.uploaded_at video = now
  ∧ int4 (UploadVideoInput.file_size input)
  ∧ int4 (videos_id_seq db).
Proof.
  unfold Pg.uploadVideo. rewrite try_rethrow_run.
  destruct (nullable real _) as [stored|]; [|done].
  unfold Pg.execute, Pg.nextval.
  case_bool_decide as Hsize; [|done]. apply Forall_int4_1 in Hsize.
  case_bool_decide as Hseq; [|done].
  unfold insert_videos_returning. intros [= <- <-]. done.
Qed.

Lemma Pg_uploadVideo_file_size_out_of_range real now input db :
  ¬ int4 (UploadVideoInput.file_size input) →
  Pg.uploadVideo real now input db = (Rejected (DatabaseError "22003"), db).
Proof.
  intros Hsize. unfold Pg.uploadVideo. rewrite try_rethrow_run.
  destruct (nullable real _) as [stored|]; [|done].
  by rewrite execute_out_of_range by by rewrite Forall_int4_1.
Qed.

(** ** The claims that depend on the column types *)










(** C8. Whatever rows the tables hold, in whatever order they were
    inserted and with whatever ties among their timestamps: [getVideos]
    resolves with all the videos, most recent [uploaded_at] first;
    [getAllTranslations] with the records of exactly the pairs a stored
    translation forms with the stored video of its [video_id] (with the
    integrity constraints: of every stored translation, once each) and
    [getTranslationsByVideo] with all the translations of the given video,
    both most recent [created_at] first. *)
Theorem listings_sorted_desc db :
  (∃ vs, getVideos db = (Resolved vs, db)
         ∧ vs ≡ₚ videos db
         ∧ StronglySorted (desc_by Video.uploaded_at) vs)
  ∧ (∃ rows, getAllTranslations db = (Resolved rows, db)
             ∧ (∀ r, r ∈ rows ↔
                     ∃ t v, t ∈ translations db ∧ v ∈ videos db
                            ∧ Translation.video_id t = Video.id v
                            ∧ translation_of r = t
                            ∧ TranslationWithVideo.video r = v)
             ∧ (wf_db db → List.map translation_of rows ≡ₚ translations db)
             ∧ StronglySorted (desc_by TranslationWithVideo.created_at) rows)
  ∧ (∀ video_id,
       ∃ ts, getTranslationsByVideo video_id db = (Resolved ts, db)
             ∧ ts ≡ₚ List.filter
                       (λ t, bool_decide (Translation.video_id t = video_id))
                       (translations db)
             ∧ StronglySorted (desc_by Translation.created_at) ts).
Proof.
  split; [|split].
  - eexists. split; [apply getVideos_run|].
    split; [apply desc_Permutation|apply StronglySorted_desc].
  - eexists. split; [apply getAllTranslations_run|]. split; [|split].
    + intros r. rewrite list_elem_of_In, in_map_iff. split.
      * intros ([t v] & <- & Hin). exists t, v.
        apply list_elem_of_In in Hin. rewrite desc_Permutation in Hin.
        apply elem_of_innerJoin in Hin as (? & ? & ?).
        by rewrite translation_of_joined_row, video_joined_row.
      * intros (t & v & Ht & Hv & Hon & <- & <-). exists (translation_of r,
          TranslationWithVideo.video r).
        split; [by destruct r as [? ? ? ? ? ? ? ? ? ? ? ? ? []]|].
        apply list_elem_of_In. rewrite desc_Permutation.
        by apply elem_of_innerJoin.
    + intros Hwf. rewrite List.map_map.
      rewrite (map_ext _ fst) by (intros [t v]; apply translation_of_joined_row).
      rewrite <- (innerJoin_translations db Hwf).
      apply Permutation_map, desc_Permutation.
    + apply (StronglySorted_fmap joined_row
               (desc_by (λ r, Translation.created_at r.1))).
      * by intros [t1 v1] [t2 v2].
      * apply StronglySorted_desc.
  - intros video_id. eexists. split; [apply getTranslationsByVideo_run|].
    split; [apply desc_Permutation|apply StronglySorted_desc].
Qed.

Lemma listings_sorted_desc_witness :
  ∃ rows, getAllTranslations db_one_translation
          = (Resolved rows, db_one_translation)
          ∧ List.map translation_of rows ≡ₚ [test_translation]
          ∧ StronglySorted (desc_by TranslationWithVideo.created_at) rows.
Proof.
  destruct (listings_sorted_desc db_one_translation)
    as (_ & (rows & Hrun & _ & Hall & Hsorted) & _).
  exists rows. split; [exact Hrun|]. split; [|exact Hsorted].
  apply (Hall wf_db_one_translation).
Defined.

(** ** Further properties on the column types *)

Lemma Pg_updateTranslationProgress_cases now input db :
  Pg.updateTranslationProgress now input db
  = updateTranslationProgress now input db
  ∨ Pg.updateTranslationProgress now input db
    = (Rejected (DatabaseError "22003"), db).
Proof.
  unfold Pg.updateTranslationProgress, updateTranslationProgress.
  rewrite !try_rethrow_run. unfold mbind, Promise_bind, Pg.execute.
  case_bool_decide; auto.
Qed.



(** X7. [updateTranslationProgress] changes nothing but the updatable
    columns of the rows with the given id: the videos and both sequences
    are as before, the translations are the same rows as far as [id],
    [video_id], [target_language] and [created_at] go, and the rows with
    another id are the rows that were there, nothing being said about the
    order in which the table holds them. *)
Theorem Pg_updateTranslationProgress_frame now input db :
  let db' := (Pg.updateTranslationProgress now input db).2 in
  let other := λ t : Translation.t,
    negb (bool_decide
            (Translation.id t
             = UpdateTranslationProgressInput.translation_id input)) in
  videos db' = videos db
  ∧ videos_id_seq db' = videos_id_seq db
  ∧ translations_id_seq db' = translations_id_seq db
  ∧ List.map fixed_columns (translations db')
    ≡ₚ List.map fixed_columns (translations db)
  ∧ List.filter other (translations db') ≡ₚ List.filter other (translations db).
Proof.
  intros db' other. unfold db'.
  destruct (Pg_updateTranslationProgress_cases now input db) as [-> | ->];
    [|done].
  rewrite updateTranslationProgress_run. simpl.
  repeat split; try done.
  - rewrite List.map_map.
    rewrite (map_ext _ fixed_columns); [done|].
    intros t. unfold fixed_columns.
    by destruct (update_row_keys input now t) as (-> & -> & -> & ->).
  - induction (translations db) as [|t rows IH]; [done|].
    cbn [List.map List.filter].
    destruct (update_row_keys input now t) as (Hid & _).
    cbv beta in Hid.
    assert (∀ t1 t2 : Translation.t,
              Translation.id t1 = Translation.id t2 → other t1 = other t2)
      as Hother by (intros t1 t2 Heq; unfold other; by rewrite Heq).
    rewrite (Hother _ t Hid).
    destruct (other t) eqn:Ho; [|exact IH].
    unfold other in Ho. apply negb_true_iff in Ho. rewrite Ho.
    by rewrite IH.
Qed.





(** X14. The client's update of its video list agrees with the server on
    what is listed and on what comes first: when an upload resolves at a
    time later than every stored upload, [getVideos] afterwards lists the
    uploaded video first, and its list has the entries of the list
    [handleVideoUploaded] makes of the uploaded video and the previous
    listing. *)
Theorem getVideos_after_uploadVideo real now input db prev video db' :
  (∀ v, v ∈ videos db → Video.uploaded_at v < now) →
  getVideos db = (Resolved prev, db) →
  Pg.uploadVideo real now input db = (Resolved video, db') →
  ∃ listing,
    getVideos db' = (Resolved listing, db')
    ∧ head listing = Some video
    ∧ listing ≡ₚ handleVideoUploaded video prev.
Proof.
  intros Hnew Hprev (-> & _ & Hat & _)%Pg_uploadVideo_resolved_inv.
  rewrite getVideos_run in Hprev. injection Hprev as <-.
  eexists. split; [apply getVideos_run|]. simpl.
  rewrite desc_snoc_newest by (intros v Hv; rewrite Hat; by apply Hnew).
  done.
Qed.

Lemma getVideos_after_uploadVideo_witness :
  ∃ video db' listing,
    Pg.uploadVideo exact_real 5000 test_video_input db_one_video
    = (Resolved video, db')
    ∧ getVideos db' = (Resolved listing, db')
    ∧ head listing = Some video
    ∧ listing ≡ₚ [video; test_video].
Proof.
  pose (video := uploaded_video 5000 test_video_input db_one_video).
  exists video, (db_with_video db_one_video video).
  destruct (getVideos_after_uploadVideo exact_real 5000 test_video_input
              db_one_video [test_video] video (db_with_video db_one_video video))
    as (listing & Hrun & Hhead & Hperm).
  - intros v Hv. each_row Hv. reflexivity.
  - reflexivity.
  - reflexivity.
  - exists listing. split; [reflexivity|]. done.
Defined.

(** * The race of the duplicate check *)

Lemma createTranslation_statements now input db :
  createTranslation now input db
  = (_ ← check_video input; _ ← check_existing input;
     insert_pending now input) db.
Proof.
  unfold createTranslation, check_video, check_existing, insert_pending.
  rewrite try_rethrow_run. unfold mbind, Promise_bind, select; simpl.
  destruct (bool_decide (length _ = 0%nat)); [done|]. simpl.
  by destruct (bool_decide (0 < length _)%nat).
Qed.

Lemma check_video_found input db v :
  v ∈ videos db → Video.id v = CreateTranslationInput.video_id input →
  check_video input db = (Resolved (), db).
Proof.
  intros Hv Hid. unfold check_video, mbind, Promise_bind, select; simpl.
  destruct (List.filter _ (videos db)) as [|v' vs] eqn:Hf; [|done].
  exfalso. eapply filter_some; [exact Hv| |exact Hf].
  by apply bool_decide_eq_true.
Qed.

Lemma check_existing_none input db :
  (∀ t, t ∈ translations db →
        Translation.video_id t = CreateTranslationInput.video_id input →
        Translation.target_language t
        ≠ CreateTranslationInput.target_language input) →
  check_existing input db = (Resolved (), db).
Proof.
  intros Hfresh. unfold check_existing, mbind, Promise_bind, select; simpl.
  rewrite filter_none; [done|].
  intros t Ht. apply andb_false_iff.
  destruct (decide (Translation.video_id t
                    = CreateTranslationInput.video_id input)) as [Heq|Hne].
  - right. apply bool_decide_eq_false. by apply Hfresh.
  - left. by apply bool_decide_eq_false.
Qed.

(** X24. The duplicate check and the insert of [createTranslation] are
    separate statements with no transaction around them and no unique
    index under them: when two identical requests for a stored video and a
    language it has no translation to both run their checks before either
    inserts, both resolve, and two rows for the same video and language,
    with different ids, are stored. *)
Theorem createTranslation_race now1 now2 db v lang :
  v ∈ videos db →
  (∀ t, t ∈ translations db →
        Translation.video_id t = Video.id v →
        Translation.target_language t ≠ lang) →
  ∃ first second db',
    two_requests_interleaved now1 now2
      (CreateTranslationInput.mk (Video.id v) lang) db
    = (Resolved (first, second), db')
    ∧ translation_key first = (Video.id v, lang)
    ∧ translation_key second = (Video.id v, lang)
    ∧ Translation.id first ≠ Translation.id second
    ∧ translations db' = translations db ++ [first; second]
    ∧ ¬ unique_translations db'.
Proof.
  intros Hv Hfresh.
  set (input := CreateTranslationInput.mk (Video.id v) lang).
  unfold two_requests_interleaved, mbind, Promise_bind.
  rewrite (check_video_found input db v Hv eq_refl).
  rewrite (check_video_found input db v Hv eq_refl).
  rewrite (check_existing_none input db Hfresh).
  rewrite (check_existing_none input db Hfresh).
  unfold insert_pending, insert_translations_returning; simpl.
  eexists _, _, _. split; [reflexivity|]. simpl.
  split; [done|]. split; [done|]. split; [lia|].
  split; [by rewrite <- app_assoc|].
  unfold unique_translations; simpl.
  rewrite <- app_assoc, List.map_app. simpl.
  intros (_ & _ & Hdup)%NoDup_app.
  apply NoDup_cons in Hdup as [Hin _]. apply Hin. by left.
Qed.

Lemma createTranslation_race_witness :
  ∃ first second db',
    two_requests_interleaved 3000 3001 (CreateTranslationInput.mk 1 fr)
      db_one_translation
    = (Resolved (first, second), db')
    ∧ Translation.target_language first = fr
    ∧ Translation.target_language second = fr
    ∧ Translation.id first ≠ Translation.id second.
Proof.
  destruct (createTranslation_race 3000 3001 db_one_translation test_video fr)
    as (first & second & db' & Hrun & Hk1 & Hk2 & Hid & _).
  - vm_compute. left.
  - intros t Ht _. each_row Ht. discriminate.
  - exists first, second, db'. split; [exact Hrun|].
    by injection Hk1 as _ ->; injection Hk2 as _ ->.
Defined.
